(** * XRP-Wallet-Tools: the mnemonic-to-address batch deriver of [xrp.js]

    A shallow embedding of [deriveRippleAddress] and
    [deriveAddressesFromFile], and the properties of the derivation engine
    and of the batch runner proved over it.

    - JavaScript strings are sequences of UTF-16 code units ([jsstring]).
    - JavaScript numbers are IEEE-754 binary64 values; the progress
      percentage is computed with the Standard Library's [SpecFloat]
      operations at precision 53 and maximal exponent 1024.
    - The npm packages [bip39], [ripple-bip32] and [ripple-keypairs] are
      external: they are an interface ([CryptoLibs]) whose operations
      either return a value or throw.
    - Effects (the call log of the external packages, the output stream,
      the console, the two progress counters) live in a [World] that is
      threaded through a state-and-exception monad: a thrown error keeps
      the effects that happened before it, as in JavaScript. *)

From Stdlib Require Import QArith Qround.
From Stdlib Require Import ZArith NArith List String Ascii Bool Lia.
From Stdlib Require Import DecimalString DecimalZ.
From Stdlib Require Import Floats.SpecFloat.
Import ListNotations.
Close Scope Q_scope.



(** ** JavaScript strings *)

Module JsString.

(** A string value: its UTF-16 code units. *)
Definition jsstring := list N.

(** An ASCII literal of the source, as code units. *)
Definition lit (s : string) : jsstring :=
  map N_of_ascii (list_ascii_of_string s).

(** The code units [String.prototype.trim] strips: ECMAScript WhiteSpace
    (TAB, VT, FF, ZWNBSP and the Unicode space separators) and
    LineTerminator (LF, CR, LS, PS). *)
Definition is_white_space (c : N) : bool :=
  match c with
  | 9 | 10 | 11 | 12 | 13 | 32 | 160 | 5760
  | 8232 | 8233 | 8239 | 8287 | 12288 | 65279 => true
  | _ => (8192 <=? c) && (c <=? 8202)
  end%N.

Fixpoint trimStart (s : jsstring) : jsstring :=
  match s with
  | [] => []
  | c :: r => if is_white_space c then trimStart r else s
  end.

Definition trimEnd (s : jsstring) : jsstring := rev (trimStart (rev s)).

(** [line.trim()] *)
Definition trim (s : jsstring) : jsstring := trimEnd (trimStart s).

(** Truthiness of a string in a condition: the empty string is falsy. *)
Definition truthy (s : jsstring) : bool :=
  match s with [] => false | _ :: _ => true end.

(** A line is blank when it is empty or made of white space only. *)
Definition blank (s : jsstring) : bool := forallb is_white_space s.

End JsString.
Import JsString.

Arguments lit : simpl never.

(** ** JavaScript numbers *)

Module JsNumber.

Definition prec : Z := 53.
Definition emax : Z := 1024.

(** The double that holds the integer [z] (exact while |z| <= 2^53). *)
Definition ofZ (z : Z) : spec_float := binary_normalize prec emax z 0 false.

Definition div (x y : spec_float) : spec_float := SFdiv prec emax x y.
Definition mul (x y : spec_float) : spec_float := SFmul prec emax x y.

(** A number with no fractional part, as [Math.floor] returns it. *)
Inductive integral : Type :=
| Int (z : Z)
| Infinite (negative : bool)
| NaN.

(** [Math.floor]: the largest integer not above the argument; infinities
    and NaN are returned unchanged.  [Z.shiftl] by a negative amount is
    the division by a power of two rounded towards minus infinity. *)
Definition floor (x : spec_float) : integral :=
  match x with
  | S754_zero _ => Int 0
  | S754_infinity s => Infinite s
  | S754_nan => NaN
  | S754_finite s m e => Int (Z.shiftl (cond_Zopp s (Zpos m)) e)
  end.

(** [x++] on a variable holding a non-negative integer: the successor is
    exact below 2^53, and 2^53 + 1 rounds back to 2^53. *)
Definition incr (x : Z) : Z := if (x <? 2 ^ 53)%Z then (x + 1)%Z else x.

(** Decimal text of an integer, as a template literal prints it (the plain
    digits form, which JavaScript uses below 10^21). *)
Definition intToString (z : Z) : jsstring :=
  lit (NilZero.string_of_int (Z.to_int z)).

Definition toString (x : integral) : jsstring :=
  match x with
  | Int z => intToString z
  | Infinite false => lit "Infinity"
  | Infinite true => lit "-Infinity"
  | NaN => lit "NaN"
  end.

(** [Math.floor((processedLines / totalLines) * 100)] *)
Definition percentOf (processedLines totalLines : Z) : integral :=
  floor (mul (div (ofZ processedLines) (ofZ totalLines)) (ofZ 100)).

(** A double that is zero, or positive and at most one. *)
Definition atMostOne (x : spec_float) : Prop :=
  x = S754_zero false
  \/ exists m e, x = S754_finite false m e /\ (e <= 0)%Z /\ (Zpos m <= 2 ^ (- e))%Z.

End JsNumber.

(** ** The external packages *)

(** What [getKeyPairs()] returns. *)
Record KeyPairs : Type := { privateKey : jsstring; publicKey : jsstring }.

(** [bip39], [ripple-bip32] and [ripple-keypairs], as far as [xrp.js] uses
    them.  Each operation is a function of its arguments that returns a
    value ([inr]) or throws ([inl]); [validateMnemonic] returns a boolean. *)
Class CryptoLibs : Type := {
  Seed : Type;
  HDNode : Type;
  ECPair : Type;
  LibError : Type;
  validateMnemonic : jsstring -> bool;
  mnemonicToSeed : jsstring -> LibError + Seed;
  fromSeedBuffer : Seed -> LibError + HDNode;
  derivePath : HDNode -> jsstring -> LibError + HDNode;
  keyPair : HDNode -> ECPair;
  getKeyPairs : ECPair -> LibError + KeyPairs;
  deriveAddress : jsstring -> LibError + jsstring
}.

(** The line feed of the record terminators and console messages. *)
Definition LF : jsstring := [10%N].

(** The derivation path literal of [deriveRippleAddress]. *)
Definition ripplePath : jsstring := lit "m/44'/144'/0'/0/0".

(** *** BIP32 path notation *)

Module Bip32Path.

Inductive segment : Type :=
| Hardened (index : N)
| Normal (index : N).

Definition digit (c : N) : option N :=
  if ((48 <=? c) && (c <=? 57))%N then Some (c - 48)%N else None.

Fixpoint number (acc : N) (s : jsstring) : option N :=
  match s with
  | [] => Some acc
  | c :: r =>
      match digit c with
      | Some d => number (10 * acc + d)%N r
      | None => None
      end
  end.

(** [path.split('/')] *)
Fixpoint split (cur : jsstring) (s : jsstring) : list jsstring :=
  match s with
  | [] => [rev cur]
  | c :: r => if (c =? 47)%N then rev cur :: split [] r else split (c :: cur) r
  end.

(** One piece between slashes: decimal digits, then an apostrophe when
    the child is hardened. *)
Definition parseSegment (s : jsstring) : option segment :=
  match rev s with
  | [] => None
  | c :: r =>
      if (c =? 39)%N
      then match r with
           | [] => None
           | _ => option_map Hardened (number 0 (rev r))
           end
      else option_map Normal (number 0 s)
  end.

Fixpoint parseSegments (l : list jsstring) : option (list segment) :=
  match l with
  | [] => Some []
  | s :: r =>
      match parseSegment s, parseSegments r with
      | Some x, Some xs => Some (x :: xs)
      | _, _ => None
      end
  end.

(** The hierarchical path that a path literal denotes in the BIP32
    notation: the pieces between slashes after a leading [m], an
    apostrophe marking a hardened child.  This reads the notation of the
    standard; it is not the parser of the HD-wallet package, which is not
    part of the repository and differs from it on literals the code never
    passes (a bare [m], no leading [m], indexes from 2^31 on).  The code
    passes one literal only, [ripplePath]. *)
Definition parse (path : jsstring) : option (list segment) :=
  match split [] path with
  | m :: rest => if list_eq_dec N.eq_dec m (lit "m") then parseSegments rest else None
  | [] => None
  end.

End Bip32Path.

(** ** Effects *)

Section Runner.

Context {libs : CryptoLibs}.

(** A call into one of the external packages. *)
Inductive Call : Type :=
| CallValidateMnemonic (mnemonic : jsstring)
| CallMnemonicToSeed (mnemonic : jsstring)
| CallFromSeedBuffer (seed : Seed)
| CallDerivePath (node : HDNode) (path : jsstring)
| CallGetKeyPairs (pair : ECPair)
| CallDeriveAddress (key : jsstring).

(** A thrown value or a promise rejection. *)
Inductive JsErr : Type :=
| JsError (message : jsstring)      (* new Error(message) *)
| LibThrown (e : LibError)          (* thrown inside an external package *)
| WriteFailed (attempt : nat).      (* err given to a write callback *)

(** What the run has done so far. *)
Record World : Type := mkWorld {
  calls : list Call;                    (* calls into the packages, in order *)
  sink : list jsstring;                 (* chunks written to writeStream *)
  writes : nat;                         (* write attempts on writeStream *)
  ended : bool;                         (* writeStream.end() was called *)
  stdout : list jsstring;               (* process.stdout / console.log *)
  stderr : list (jsstring * JsErr);     (* console.error(message, err) *)
  totalLines : Z;
  processedLines : Z
}.

Definition initialWorld : World :=
  mkWorld [] [] 0 false [] [] 0 0.

(** The input file as the two read streams deliver it, and the behaviour
    of the output stream: [sinkOk n] tells whether the [n]-th write
    attempt (from 0) succeeds.  Any pattern is allowed.  The stream of
    [fs.createWriteStream] is destroyed by its first write error, so that
    every later write fails too: it is the special case of a [sinkOk] that
    stays [false] once it was [false]. *)
Record Env : Type := mkEnv {
  firstRead : jsstring -> list jsstring;
  secondRead : jsstring -> list jsstring;
  sinkOk : nat -> bool
}.

Inductive Result (A : Type) : Type :=
| Val (a : A)
| Exn (e : JsErr).
Arguments Val {A} a.
Arguments Exn {A} e.

(** Computations: state passing, with exceptions that keep the state. *)
Definition M (A : Type) : Type := World -> Result A * World.

Definition ret {A} (a : A) : M A := fun w => (Val a, w).

Definition bind {A B} (c : M A) (k : A -> M B) : M B :=
  fun w =>
    match c w with
    | (Val a, w') => k a w'
    | (Exn e, w') => (Exn e, w')
    end.

Definition throw {A} (e : JsErr) : M A := fun w => (Exn e, w).

(** [try { body } catch (err) { handler }] *)
Definition tryCatch {A} (body : M A) (handler : JsErr -> M A) : M A :=
  fun w =>
    match body w with
    | (Val a, w') => (Val a, w')
    | (Exn e, w') => handler e w'
    end.

Definition modify (f : World -> World) : M unit := fun w => (Val tt, f w).
Definition gets {A} (f : World -> A) : M A := fun w => (Val (f w), w).

Declare Scope js_scope.
Delimit Scope js_scope with js.
Notation "x <- c ;; k" := (bind c (fun x => k))
  (at level 61, c at next level, right associativity) : js_scope.
Notation "c ;;; k" := (bind c (fun _ => k))
  (at level 61, right associativity) : js_scope.
Local Open Scope js_scope.

(** [for await (const x of xs) body]: the first rejection leaves the loop. *)
Fixpoint forEach {A} (xs : list A) (body : A -> M unit) : M unit :=
  match xs with
  | [] => ret tt
  | x :: r => body x ;;; forEach r body
  end.

(** *** World updates *)

Definition logCall (c : Call) (w : World) : World :=
  mkWorld (calls w ++ [c]) (sink w) (writes w) (ended w)
          (stdout w) (stderr w) (totalLines w) (processedLines w).

Definition pushSink (chunk : jsstring) (w : World) : World :=
  mkWorld (calls w) (sink w ++ [chunk]) (S (writes w)) (ended w)
          (stdout w) (stderr w) (totalLines w) (processedLines w).

Definition failSink (w : World) : World :=
  mkWorld (calls w) (sink w) (S (writes w)) (ended w)
          (stdout w) (stderr w) (totalLines w) (processedLines w).

Definition openSink (w : World) : World :=
  mkWorld (calls w) [] 0 false
          (stdout w) (stderr w) (totalLines w) (processedLines w).

Definition endSink (w : World) : World :=
  mkWorld (calls w) (sink w) (writes w) true
          (stdout w) (stderr w) (totalLines w) (processedLines w).

Definition pushStdout (s : jsstring) (w : World) : World :=
  mkWorld (calls w) (sink w) (writes w) (ended w)
          (stdout w ++ [s]) (stderr w) (totalLines w) (processedLines w).

Definition pushStderr (s : jsstring) (e : JsErr) (w : World) : World :=
  mkWorld (calls w) (sink w) (writes w) (ended w)
          (stdout w) (stderr w ++ [(s, e)]) (totalLines w) (processedLines w).

Definition setTotalLines (n : Z) (w : World) : World :=
  mkWorld (calls w) (sink w) (writes w) (ended w)
          (stdout w) (stderr w) n (processedLines w).

Definition setProcessedLines (n : Z) (w : World) : World :=
  mkWorld (calls w) (sink w) (writes w) (ended w)
          (stdout w) (stderr w) (totalLines w) n.

(** *** Calls into the packages *)

(** A call is logged, then returns or throws as the package decides. *)
Definition extern {A} (c : Call) (r : LibError + A) : M A :=
  fun w =>
    match r with
    | inr a => (Val a, logCall c w)
    | inl e => (Exn (LibThrown e), logCall c w)
    end.

(** ** The derivation engine *)

(** [async function deriveRippleAddress(mnemonic)] *)
Definition deriveRippleAddress (mnemonic : jsstring) : M jsstring :=
  valid <- extern (CallValidateMnemonic mnemonic) (inr (validateMnemonic mnemonic)) ;;
  if negb valid
  then throw (JsError (lit "Invalid mnemonic"))
  else
    seed <- extern (CallMnemonicToSeed mnemonic) (mnemonicToSeed mnemonic) ;;
    root <- extern (CallFromSeedBuffer seed) (fromSeedBuffer seed) ;;
    node <- extern (CallDerivePath root ripplePath) (derivePath root ripplePath) ;;
    keyPairs <- extern (CallGetKeyPairs (keyPair node)) (getKeyPairs (keyPair node)) ;;
    address <- extern (CallDeriveAddress (publicKey keyPairs))
                      (deriveAddress (publicKey keyPairs)) ;;
    ret address.

(** ** The batch runner *)

Variable env : Env.

(** [writeStream.write(chunk, callback)] wrapped in a promise: the promise
    is rejected when the callback receives an error. *)
Definition writeChunk (chunk : jsstring) : M unit :=
  fun w =>
    if sinkOk env (writes w)
    then (Val tt, pushSink chunk w)
    else (Exn (WriteFailed (writes w)), failSink w).

Definition successRecord (mnemonic address : jsstring) : jsstring :=
  mnemonic ++ lit "|" ++ address ++ LF.

Definition errorRecord (mnemonic : jsstring) : jsstring :=
  mnemonic ++ lit "|Error deriving address" ++ LF.

Definition progressMessage (percent : JsNumber.integral) (processed total : Z)
  : jsstring :=
  [13%N] ++ lit "Processing... " ++ JsNumber.toString percent ++ lit "% ("
         ++ JsNumber.intToString processed ++ lit "/"
         ++ JsNumber.intToString total ++ lit ")".

(** The body of the [for await] loop (lines 57 to 83). *)
Definition processLine (line : jsstring) : M unit :=
  let mnemonic := trim line in
  (if truthy mnemonic
   then
     tryCatch
       (address <- deriveRippleAddress mnemonic ;;
        writeChunk (successRecord mnemonic address))
       (fun err =>
          modify (pushStderr (lit "Error deriving address for mnemonic: " ++ mnemonic) err) ;;;
          writeChunk (errorRecord mnemonic))
   else ret tt) ;;;
  processed <- gets processedLines ;;
  modify (setProcessedLines (JsNumber.incr processed)) ;;;
  processed <- gets processedLines ;;
  total <- gets totalLines ;;
  modify (pushStdout (progressMessage (JsNumber.percentOf processed total) processed total)).

(** The ['line'] listener of the first interface: [totalLines++]. *)
Definition countLine (line : jsstring) : M unit :=
  total <- gets totalLines ;;
  modify (setTotalLines (JsNumber.incr total)).

(** The ['close'] listener: the processing pass. *)
Definition onClose (inputFilePath outputFilePath : jsstring) : M unit :=
  forEach (secondRead env inputFilePath) processLine ;;;
  modify endSink ;;;
  modify (pushStdout (LF ++ lit "Results written to " ++ outputFilePath ++ LF)).

(** [async function deriveAddressesFromFile(inputFilePath, outputFilePath)].
    The [try] block only opens the streams, initialises the counters and
    registers the listeners; the listeners run afterwards, from the event
    loop: first the ['line'] events of the counting pass, then ['close'].
    A rejection of the ['close'] listener is handled by nobody: it is the
    [Exn] result of the run. *)
Definition deriveAddressesFromFile (inputFilePath outputFilePath : jsstring)
  : M unit :=
  tryCatch
    (modify openSink ;;;
     modify (setTotalLines 0) ;;;
     modify (setProcessedLines 0))
    (fun err => modify (pushStderr (lit "Error processing mnemonics:") err)) ;;;
  forEach (firstRead env inputFilePath) countLine ;;;
  onClose inputFilePath outputFilePath.

End Runner.

Arguments Val {libs A} a.
Arguments Exn {libs A} e.

(** ** Observations on a run *)

Section Observations.

Context {libs : CryptoLibs}.
Variable env : Env.

(** The calls [cs] appended to the call log, nothing else touched. *)
Definition addCalls (cs : list Call) (w : World) : World :=
  mkWorld (calls w ++ cs) (sink w) (writes w) (ended w)
          (stdout w) (stderr w) (totalLines w) (processedLines w).

(** What a derivation started in a fresh world returns and calls. *)
Definition engineResult (mnemonic : jsstring) : Result jsstring :=
  fst (deriveRippleAddress mnemonic initialWorld).

Definition engineCalls (mnemonic : jsstring) : list Call :=
  calls (snd (deriveRippleAddress mnemonic initialWorld)).

(** The first half of the loop body: lines 57 to 77. *)
Definition handleLine (line : jsstring) : M unit :=
  let mnemonic := trim line in
  if truthy mnemonic
  then
    tryCatch
      (bind (deriveRippleAddress mnemonic)
            (fun address => writeChunk env (successRecord mnemonic address)))
      (fun err =>
         bind (modify (pushStderr (lit "Error deriving address for mnemonic: " ++ mnemonic) err))
              (fun _ => writeChunk env (errorRecord mnemonic)))
  else ret tt.

(** The second half of the loop body (lines 79 to 83), as a world update. *)
Definition tick (w : World) : World :=
  let processed := JsNumber.incr (processedLines w) in
  pushStdout
    (progressMessage (JsNumber.percentOf processed (totalLines w))
                     processed (totalLines w))
    (setProcessedLines processed w).

(** The world after the first half of the loop body when the write of the
    record succeeds. *)
Definition afterHandle (line : jsstring) (w : World) : World :=
  let mnemonic := trim line in
  if truthy mnemonic
  then
    match engineResult mnemonic with
    | Val address =>
        pushSink (successRecord mnemonic address) (addCalls (engineCalls mnemonic) w)
    | Exn err =>
        pushSink (errorRecord mnemonic)
          (pushStderr (lit "Error deriving address for mnemonic: " ++ mnemonic) err
             (addCalls (engineCalls mnemonic) w))
    end
  else w.

Definition afterLine (line : jsstring) (w : World) : World :=
  tick (afterHandle line w).

Definition afterLines (lines : list jsstring) (w : World) : World :=
  fold_left (fun w line => afterLine line w) lines w.

(** The record the batch owes to a line: none for a blank line, otherwise
    the trimmed text, a bar, and the address or the error sentinel. *)
Definition expectedRecord (line : jsstring) : option jsstring :=
  if blank line then None
  else Some (match engineResult (trim line) with
             | Val address => successRecord (trim line) address
             | Exn _ => errorRecord (trim line)
             end).

Definition expectedRecords (lines : list jsstring) : list jsstring :=
  flat_map (fun line => match expectedRecord line with
                        | Some r => [r]
                        | None => []
                        end) lines.

(** What follows the bar in the record of a line. *)
Definition payloadOf (line : jsstring) : jsstring :=
  match engineResult (trim line) with
  | Val address => address
  | Exn _ => lit "Error deriving address"
  end.

Definition nonBlankLines (lines : list jsstring) : list jsstring :=
  filter (fun line => negb (blank line)) lines.

(** [l1] is [l2] with some elements left out, the order kept. *)
Inductive Subsequence {A : Type} : list A -> list A -> Prop :=
| sub_nil : Subsequence [] []
| sub_skip x l1 l2 : Subsequence l1 l2 -> Subsequence l1 (x :: l2)
| sub_take x l1 l2 : Subsequence l1 l2 -> Subsequence (x :: l1) (x :: l2).

(** A chunk that is a record of the line: its trimmed text, a bar, the
    address or the error sentinel, a line feed. *)
Definition isRecordOf (line chunk : jsstring) : Prop :=
  chunk = trim line ++ lit "|" ++ payloadOf line ++ LF
  \/ chunk = trim line ++ lit "|Error deriving address" ++ LF.

(** The value of a counter after [k] increments from [start]. *)
Definition counterAfter (k : nat) (start : Z) : Z := Nat.iter k JsNumber.incr start.

(** The progress line printed after the [k]-th line of the processing
    pass, for the counters [start] and [total]. *)
Definition progressAt (total start : Z) (k : nat) : jsstring :=
  let processed := counterAfter k start in
  progressMessage (JsNumber.percentOf processed total) processed total.

Definition progressLines (total start : Z) (j : nat) : list jsstring :=
  map (progressAt total start) (seq 1 j).

(** The world when the ['close'] listener starts: the sink opened, the
    counters initialised, the lines of the counting pass counted. *)
Definition countedWorld (inputFilePath : jsstring) (w : World) : World :=
  setTotalLines (counterAfter (List.length (firstRead env inputFilePath)) 0)
    (setProcessedLines 0 (setTotalLines 0 (openSink w))).

Definition completionNotice (outputFilePath : jsstring) : jsstring :=
  LF ++ lit "Results written to " ++ outputFilePath ++ LF.

(** The record of a line as the format [<original-line-text>|...] reads:
    built on the line as it was read, not on its trimmed text. *)
Definition recordOfOriginalLine (line : jsstring) : jsstring :=
  match engineResult (trim line) with
  | Val address => line ++ lit "|" ++ address ++ LF
  | Exn _ => line ++ lit "|Error deriving address" ++ LF
  end.

(** The percentage in exact arithmetic: the integer part of the rational
    [processed / total * 100]. *)
Definition exactPercent (processed total : Z) : Z :=
  Qfloor (inject_Z processed / inject_Z total * inject_Z 100)%Q.

(** The fixed path of the specification: purpose 44, coin type 144 and
    account 0 hardened, then change 0 and address index 0. *)
Definition fixedPath : list Bip32Path.segment :=
  [Bip32Path.Hardened 44; Bip32Path.Hardened 144; Bip32Path.Hardened 0;
   Bip32Path.Normal 0; Bip32Path.Normal 0].

Definition isDerivePath (c : Call) : bool :=
  match c with CallDerivePath _ _ => true | _ => false end.

Definition isKeyDerivation (c : Call) : bool :=
  match c with
  | CallValidateMnemonic _ => false
  | _ => true
  end.

End Observations.

(** ** A small instance of the packages, to run the model on *)

Module Demo.

Definition countSpaces (s : jsstring) : nat := List.length (filter (N.eqb 32) s).

(** Twelve or twenty-four words are "valid"; a seed is the phrase itself; a
    node remembers its seed and the path it was derived by; a phrase
    starting with [!] makes the seed expansion throw. *)
Definition demoLibs : CryptoLibs := {|
  Seed := jsstring;
  HDNode := jsstring * jsstring;
  ECPair := jsstring * jsstring;
  LibError := jsstring;
  validateMnemonic := fun m => Nat.eqb (countSpaces m) 11 || Nat.eqb (countSpaces m) 23;
  mnemonicToSeed := fun m =>
    match m with
    | 33%N :: _ => inl (lit "seed expansion failed")
    | _ => inr m
    end;
  fromSeedBuffer := fun s => inr (s, lit "m");
  derivePath := fun n p => inr (fst n, p);
  keyPair := fun n => n;
  getKeyPairs := fun k =>
    inr {| privateKey := lit "prv:" ++ fst k;
           publicKey := lit "pub:" ++ snd k ++ lit ":"
                          ++ JsNumber.intToString (Z.of_nat (List.length (fst k))) |};
  deriveAddress := fun pk => inr (lit "r(" ++ pk ++ lit ")")
|}.

(** The twelve-word test phrase of the BIP39 reference vectors. *)
Definition phrase : jsstring :=
  lit "abandon abandon abandon abandon abandon abandon abandon abandon abandon abandon abandon about".

(** What [demoLibs] derives for [phrase]. *)
Definition phraseAddress : jsstring := lit "r(pub:m/44'/144'/0'/0/0:93)".

Definition garbage : jsstring := lit "not a mnemonic".

(** Twelve words, but the seed expansion of [demoLibs] throws on it. *)
Definition poisoned : jsstring := lit "! b c d e f g h i j k l".

Definition sampleLines : list jsstring :=
  [lit "  " ++ phrase ++ lit " "; garbage; lit "  "; lit ""; poisoned; phrase].

Definition inputFilePath : jsstring := lit "mnemonics.txt".
Definition outputFilePath : jsstring := lit "XRP.txt".

(** The same lines in both passes, a sink that takes every write. *)
Definition goodEnv (lines : list jsstring) : Env :=
  mkEnv (fun _ => lines) (fun _ => lines) (fun _ => true).

(** The sink refuses the write attempts of [failing]. *)
Definition flakyEnv (lines : list jsstring) (failing : nat -> bool) : Env :=
  mkEnv (fun _ => lines) (fun _ => lines) (fun n => negb (failing n)).

End Demo.

(** ** The script and further observations *)

Section Script.

Context {libs : CryptoLibs}.
Variable env : Env.

(** The two paths of the example usage (lines 95 and 96). *)
Definition inputFilePath : jsstring := lit "mnemonics.txt".
Definition outputFilePath : jsstring := lit "XRP.txt".

(** The top-level call of the script (line 98). *)
Definition main : M unit :=
  deriveAddressesFromFile env inputFilePath outputFilePath.

(** The world [w] seen after the history of [base]: the logs of [base]
    come first, everything else is as in [w]. *)
Definition rebase (base w : World) : World :=
  mkWorld (calls base ++ calls w) (sink w) (writes w) (ended w)
          (stdout base ++ stdout w) (stderr base ++ stderr w)
          (totalLines w) (processedLines w).


(** The package calls the lines ask for: those of one derivation per
    non-blank line, on its trimmed text. *)
Definition expectedCalls (lines : list jsstring) : list Call :=
  flat_map (fun line => if blank line then [] else engineCalls (trim line)) lines.

(** The message of the per-line [console.error] (line 69). *)
Definition errorMessage (line : jsstring) : jsstring :=
  lit "Error deriving address for mnemonic: " ++ trim line.

(** The entries the per-line [catch] logs when every write succeeds: one
    per non-blank line whose derivation throws, with the thrown error. *)
Definition expectedErrors (lines : list jsstring) : list (jsstring * JsErr) :=
  flat_map (fun line =>
              if blank line then []
              else match engineResult (trim line) with
                   | Val _ => []
                   | Exn e => [(errorMessage line, e)]
                   end) lines.

(** A chunk made of a mnemonic field without surrounding white space, a
    bar, a payload and a line feed. *)
Definition hasTrimmedField (chunk : jsstring) : Prop :=
  exists first rest payload,
    chunk = (first :: rest) ++ lit "|" ++ payload ++ LF
    /\ is_white_space first = false
    /\ is_white_space (last rest first) = false.

(** The six steps of a derivation, by the call that performs them. *)
Definition stepOf (c : Call) : nat :=
  match c with
  | CallValidateMnemonic _ => 0
  | CallMnemonicToSeed _ => 1
  | CallFromSeedBuffer _ => 2
  | CallDerivePath _ _ => 3
  | CallGetKeyPairs _ => 4
  | CallDeriveAddress _ => 5
  end.

(** [feeds c d]: the call [c] returned, and [d] is the next call of lines
    14 to 20, made on what [c] returned. *)
Definition feeds (c d : Call) : Prop :=
  match c, d with
  | CallValidateMnemonic m, CallMnemonicToSeed m' =>
      validateMnemonic m = true /\ m' = m
  | CallMnemonicToSeed m, CallFromSeedBuffer seed =>
      mnemonicToSeed m = inr seed
  | CallFromSeedBuffer seed, CallDerivePath root path =>
      fromSeedBuffer seed = inr root /\ path = ripplePath
  | CallDerivePath root path, CallGetKeyPairs pk =>
      exists node, derivePath root path = inr node /\ pk = keyPair node
  | CallGetKeyPairs pk, CallDeriveAddress key =>
      exists kp, getKeyPairs pk = inr kp /\ key = publicKey kp
  | _, _ => False
  end.

(** A call log in which every call feeds the next one. *)
Inductive Chained : list Call -> Prop :=
| chained_one c : Chained [c]
| chained_cons c d r : feeds c d -> Chained (d :: r) -> Chained (c :: d :: r).

(** [endsWith c r]: the step of the call [c] ends a derivation with the
    result [r].  The first five steps end one only by failing: a rejected
    mnemonic gives the error of line 15, a package that throws gives what it
    threw.  The address encoding ends it either way. *)
Definition endsWith (c : Call) (r : Result jsstring) : Prop :=
  match c with
  | CallValidateMnemonic m =>
      validateMnemonic m = false /\ r = Exn (JsError (lit "Invalid mnemonic"))
  | CallMnemonicToSeed m =>
      exists e, mnemonicToSeed m = inl e /\ r = Exn (LibThrown e)
  | CallFromSeedBuffer seed =>
      exists e, fromSeedBuffer seed = inl e /\ r = Exn (LibThrown e)
  | CallDerivePath root path =>
      exists e, derivePath root path = inl e /\ r = Exn (LibThrown e)
  | CallGetKeyPairs pk =>
      exists e, getKeyPairs pk = inl e /\ r = Exn (LibThrown e)
  | CallDeriveAddress key =>
      match deriveAddress key with
      | inl e => r = Exn (LibThrown e)
      | inr address => r = Val address
      end
  end.

End Script.

Module DemoScript.

(** An input file that was empty when the counting pass read it and holds
    [lines] when the processing pass reads it; every write succeeds. *)
Definition grownEnv (lines : list jsstring) : Env :=
  mkEnv (fun _ => []) (fun _ => lines) (fun _ => true).

End DemoScript.

(** ** Facts about binary64 rounding *)

Section ShiftRight.

Local Open Scope Z_scope.

Lemma iter_pos_nat {A} (f : A -> A) p : forall x,
  iter_pos f p x = Nat.iter (Pos.to_nat p) f x.
Proof.
  induction p as [p IH|p IH|]; intros x; cbn [iter_pos].
  - rewrite !IH, Pos2Nat.inj_xI, Nat.iter_succ_r.
    replace (2 * Pos.to_nat p)%nat with (Pos.to_nat p + Pos.to_nat p)%nat by lia.
    now rewrite Nat.iter_add.
  - rewrite !IH, Pos2Nat.inj_xO.
    replace (2 * Pos.to_nat p)%nat with (Pos.to_nat p + Pos.to_nat p)%nat by lia.
    now rewrite Nat.iter_add.
  - reflexivity.
Qed.

Lemma shr_1_nonneg m r s :
  0 <= m ->
  shr_1 {| shr_m := m; shr_r := r; shr_s := s |} =
  {| shr_m := m / 2; shr_r := Z.odd m; shr_s := r || s |}.
Proof.
  intros Hm. rewrite <- Z.div2_div.
  destruct m as [|[p|p|]|p]; try reflexivity. lia.
Qed.

(** After [k] one-bit shifts the mantissa is the quotient by [2^k], and
    a set round or sticky bit tells that something non-zero was dropped
    (or was already flagged before the shifts). *)
Lemma shr_iter k q r s :
  0 <= q ->
  let mrs := Nat.iter k shr_1 {| shr_m := q; shr_r := r; shr_s := s |} in
  shr_m mrs = q / 2 ^ Z.of_nat k
  /\ (shr_r mrs || shr_s mrs = true ->
      q mod 2 ^ Z.of_nat k <> 0 \/ r || s = true).
Proof.
  intros Hq. induction k as [|k IH].
  - simpl. split; [now rewrite Z.div_1_r|]. auto.
  - rewrite Nat.iter_succ. cbv zeta in IH |- *.
    destruct (Nat.iter k shr_1 _) as [m r' s'] eqn:E. simpl in IH.
    destruct IH as [Hm Hf].
    assert (Hpow : 0 < 2 ^ Z.of_nat k) by (apply Z.pow_pos_nonneg; lia).
    assert (Hm0 : 0 <= m) by (subst m; apply Z.div_pos; lia).
    rewrite shr_1_nonneg by exact Hm0. cbn [shr_m shr_r shr_s].
    rewrite Nat2Z.inj_succ, Z.pow_succ_r by lia.
    split.
    + subst m. rewrite Z.div_div by lia. f_equal. lia.
    + intros H. apply orb_true_iff in H as [Hodd|Hrs].
      * left. intros Hz.
        apply Z.mod_divide in Hz; [|lia]. destruct Hz as [c Hc].
        assert (m = 2 * c).
        { subst m. rewrite Hc.
          replace (c * (2 * 2 ^ Z.of_nat k)) with ((2 * c) * 2 ^ Z.of_nat k) by ring.
          apply Z.div_mul. lia. }
        subst m. rewrite H in Hodd. now rewrite Z.odd_mul in Hodd.
      * destruct (Hf Hrs) as [Hn|Hn]; [|now right].
        left. intros Hz. apply Hn.
        apply Z.mod_divide in Hz; [|lia]. destruct Hz as [c Hc].
        apply Z.mod_divide; [lia|]. exists (c * 2). rewrite Hc. ring.
Qed.

End ShiftRight.

Section Rounding.

Local Open Scope Z_scope.

Variables prec emax : Z.

Lemma shr_spec q r s e n :
  0 <= q ->
  exists mrs,
    shr {| shr_m := q; shr_r := r; shr_s := s |} e n = (mrs, e + Z.max 0 n)
    /\ shr_m mrs = q / 2 ^ Z.max 0 n
    /\ (shr_r mrs || shr_s mrs = true ->
        q mod 2 ^ Z.max 0 n <> 0 \/ r || s = true).
Proof.
  intros Hq. destruct n as [|p|p].
  - eexists. split; [simpl; now rewrite Z.add_0_r|]. simpl.
    split; [now rewrite Z.div_1_r|auto].
  - unfold shr. rewrite iter_pos_nat. eexists. split.
    { reflexivity. }
    replace (Z.max 0 (Z.pos p)) with (Z.of_nat (Pos.to_nat p)) by lia.
    apply shr_iter. exact Hq.
  - eexists. split; [simpl; now rewrite Z.add_0_r|]. simpl.
    split; [now rewrite Z.div_1_r|auto].
Qed.

Lemma round_nearest_even_bounds mrs :
  shr_m mrs <= round_nearest_even (shr_m mrs) (loc_of_shr_record mrs)
            <= shr_m mrs + (if shr_r mrs || shr_s mrs then 1 else 0).
Proof.
  destruct mrs as [m [|] [|]]; simpl; try lia.
  destruct (Z.even m); lia.
Qed.

Lemma shr_record_of_loc_flags m l :
  exists r s, shr_record_of_loc m l = {| shr_m := m; shr_r := r; shr_s := s |}
              /\ (r || s = true -> l <> loc_Exact).
Proof.
  destruct l as [|[| |]]; simpl; eexists; eexists; split; try reflexivity;
    simpl; intros; discriminate.
Qed.

(** The rounding of [q * 2^e] (with [loc] telling what lies below [q])
    stays below any bound [K * 2^E] that is a multiple of the unit [2^E]
    of the result. *)
Lemma binary_round_aux_le q e loc K :
  0 <= q ->
  let n := Z.max 0 (fexp prec emax (Zdigits2 q + e) - e) in
  q <= K * 2 ^ n ->
  (loc <> loc_Exact -> q < K * 2 ^ n) ->
  exists m k,
    0 <= k /\ 0 <= m /\ m * 2 ^ k <= K
    /\ binary_round_aux prec emax false q e loc =
       match m with
       | Z0 => S754_zero false
       | Zpos p => if e + n + k <=? emax - prec
                   then S754_finite false p (e + n + k)
                   else S754_infinity false
       | Zneg _ => S754_nan
       end.
Proof.
  intros Hq n Hle Hlt.
  unfold binary_round_aux, shr_fexp.
  destruct (shr_record_of_loc_flags q loc) as (r & s & -> & Hloc).
  destruct (shr_spec q r s e (fexp prec emax (Zdigits2 q + e) - e) Hq)
    as (mrs & -> & Hm & Hf).
  fold n in Hm, Hf |- *.
  assert (Hn : 0 <= n) by (subst n; lia).
  clearbody n.
  assert (Hpow : 0 < 2 ^ n) by (apply Z.pow_pos_nonneg; lia).
  pose proof (round_nearest_even_bounds mrs) as Hr.
  set (mr := round_nearest_even (shr_m mrs) (loc_of_shr_record mrs)) in *.
  assert (Hm0 : 0 <= shr_m mrs) by (rewrite Hm; apply Z.div_pos; lia).
  assert (HmK : shr_m mrs <= K).
  { rewrite Hm. apply Z.div_le_upper_bound; lia. }
  assert (HmrK : mr <= K).
  { destruct (shr_r mrs || shr_s mrs) eqn:Hfl; [|lia].
    enough (shr_m mrs < K) by lia.
    rewrite Hm. apply Z.div_lt_upper_bound; [lia|].
    destruct (Hf eq_refl) as [Hrem|Hrs].
    - assert (q <> K * 2 ^ n); [|lia].
      intros ->. apply Hrem. apply Z.mod_mul. lia.
    - specialize (Hlt (Hloc Hrs)). lia. }
  assert (Hmr0 : 0 <= mr) by lia.
  change (shr_record_of_loc mr loc_Exact)
    with {| shr_m := mr; shr_r := false; shr_s := false |}.
  destruct (shr_spec mr false false (e + n)
              (fexp prec emax (Zdigits2 mr + (e + n)) - (e + n)) Hmr0)
    as (mrs2 & -> & Hm2 & _).
  set (k := Z.max 0 (fexp prec emax (Zdigits2 mr + (e + n)) - (e + n))) in *.
  assert (Hk : 0 <= k) by (subst k; lia).
  assert (Hpowk : 0 < 2 ^ k) by (apply Z.pow_pos_nonneg; lia).
  exists (shr_m mrs2), k. rewrite Hm2.
  split; [exact Hk|]. split; [apply Z.div_pos; lia|]. split.
  - pose proof (Z.mul_div_le mr (2 ^ k) Hpowk). lia.
  - reflexivity.
Qed.

End Rounding.

Section DigitCount.

Local Open Scope Z_scope.

Lemma digits2_pos_bounds p :
  2 ^ (Zpos (digits2_pos p) - 1) <= Zpos p < 2 ^ Zpos (digits2_pos p).
Proof.
  induction p as [p IH|p IH|]; cbn [digits2_pos].
  - rewrite Pos2Z.inj_succ. replace (Z.succ (Z.pos (digits2_pos p)) - 1)
      with (Z.succ (Z.pos (digits2_pos p) - 1)) by lia.
    rewrite !Z.pow_succ_r by lia. lia.
  - rewrite Pos2Z.inj_succ. replace (Z.succ (Z.pos (digits2_pos p)) - 1)
      with (Z.succ (Z.pos (digits2_pos p) - 1)) by lia.
    rewrite !Z.pow_succ_r by lia. lia.
  - simpl. lia.
Qed.

Lemma Zdigits2_le q d : 0 <= d -> 0 <= q < 2 ^ d -> Zdigits2 q <= d.
Proof.
  intros Hd [Hq Hlt]. destruct q as [|p|p]; simpl; [lia| |lia].
  pose proof (digits2_pos_bounds p) as [Hlo _].
  assert (H : 2 ^ (Z.pos (digits2_pos p) - 1) < 2 ^ d) by lia.
  apply Z.pow_lt_mono_r_iff in H; lia.
Qed.

Lemma iter_xO_spec p k :
  Zpos (Pos.iter xO p k) = Zpos p * 2 ^ Zpos k
  /\ Zpos (digits2_pos (Pos.iter xO p k)) = Zpos (digits2_pos p) + Zpos k.
Proof.
  apply Pos.iter_ind with (P := fun k a =>
    Zpos a = Zpos p * 2 ^ Zpos k
    /\ Zpos (digits2_pos a) = Zpos (digits2_pos p) + Zpos k).
  - cbn [digits2_pos]. split; lia.
  - intros j a [Ha Hd]. cbn [digits2_pos].
    rewrite !Pos2Z.inj_succ, Z.pow_succ_r by lia. split; lia.
Qed.

End DigitCount.

Section IntegerToDouble.

Local Open Scope Z_scope.

Import JsNumber.

(** Rounding a mantissa that already has 53 digits changes nothing. *)
Lemma binary_round_aux_canonical m e :
  Zpos (digits2_pos m) = 53 -> -1074 <= e <= 971 ->
  binary_round_aux prec emax false (Zpos m) e loc_Exact = S754_finite false m e.
Proof.
  intros Hd He. unfold binary_round_aux, shr_fexp.
  cbn [Zdigits2 shr_record_of_loc]. rewrite Hd.
  assert (Hf : fexp prec emax (53 + e) - e = 0).
  { unfold fexp, SpecFloat.emin, prec, emax. lia. }
  rewrite Hf. cbn [shr shr_m loc_of_shr_record round_nearest_even shr_r shr_s].
  cbn [Zdigits2 shr_record_of_loc]. rewrite Hd, Hf.
  cbn [shr shr_m]. unfold prec, emax.
  destruct (Z.leb_spec e (1024 - 53)); [reflexivity|lia].
Qed.

(** The double of a counter value: a 53-digit mantissa and an exponent,
    holding the value exactly. *)
Lemma ofZ_normal p :
  1 <= p <= 2 ^ 53 ->
  exists m e,
    ofZ p = S754_finite false m e
    /\ Zpos (digits2_pos m) = 53
    /\ -52 <= e <= 1
    /\ Zpos m * 2 ^ (e + 52) = p * 2 ^ 52.
Proof.
  intros Hp. destruct (Z.eq_dec p (2 ^ 53)) as [->|Hne].
  { exists (4503599627370496%positive), 1. repeat split; try reflexivity; lia. }
  destruct p as [|pp|pp]; try lia.
  pose proof (digits2_pos_bounds pp) as [Hlo Hhi].
  assert (Hd : Zpos (digits2_pos pp) <= 53).
  { change (Zpos (digits2_pos pp)) with (Zdigits2 (Zpos pp)).
    apply Zdigits2_le; lia. }
  unfold ofZ, binary_normalize, binary_round.
  assert (Hf : fexp prec emax (Z.pos (digits2_pos pp) + 0) = Zpos (digits2_pos pp) - 53).
  { unfold fexp, SpecFloat.emin, prec, emax. lia. }
  rewrite Hf. unfold shl_align.
  destruct (Z.pos (digits2_pos pp) - 53 - 0) as [|k|k] eqn:Hk; try lia.
  - rewrite binary_round_aux_canonical by lia.
    exists pp, 0. repeat split; try lia.
  - destruct (iter_xO_spec pp k) as [Hv Hdig].
    replace (Z.pos (digits2_pos pp) - 53) with (- Zpos k) by lia.
    rewrite binary_round_aux_canonical by lia.
    exists (Pos.iter xO pp k), (- Zpos k). repeat split; try lia.
    rewrite Hv. replace (2 ^ 52) with (2 ^ (Zpos k) * 2 ^ (- Zpos k + 52)).
    + ring.
    + rewrite <- Z.pow_add_r by lia. f_equal. lia.
Qed.

End IntegerToDouble.

Section PercentRange.

Local Open Scope Z_scope.

Import JsNumber.

Lemma new_location_exact nb r : new_location nb r <> loc_Exact -> r <> 0.
Proof.
  intros H ->. apply H. unfold new_location, new_location_even, new_location_odd.
  destruct (Z.even nb); reflexivity.
Qed.

Lemma div_atMostOne p t :
  1 <= p <= t -> t <= 2 ^ 53 -> atMostOne (div (ofZ p) (ofZ t)).
Proof.
  intros Hp Ht.
  destruct (ofZ_normal p) as (m1 & e1 & -> & Hd1 & He1 & Hv1); [lia|].
  destruct (ofZ_normal t) as (m2 & e2 & -> & Hd2 & He2 & Hv2); [lia|].
  pose proof (digits2_pos_bounds m1) as Hb1. rewrite Hd1 in Hb1.
  pose proof (digits2_pos_bounds m2) as Hb2. rewrite Hd2 in Hb2.
  change (2 ^ (53 - 1)) with (2 ^ 52) in *.
  (* the exponents are ordered as the values are *)
  assert (He : e1 <= e2).
  { destruct (Z_le_gt_dec e1 e2) as [|Hgt]; [assumption|exfalso].
    assert (H2 : 2 ^ (e1 + 52) = 2 ^ (e1 - e2 - 1) * 2 * 2 ^ (e2 + 52)).
    { replace (e1 + 52) with ((e1 - e2 - 1) + 1 + (e2 + 52)) by lia.
      rewrite !Z.pow_add_r by lia. reflexivity. }
    assert (0 < 2 ^ (e1 - e2 - 1)) by (apply Z.pow_pos_nonneg; lia).
    assert (0 < 2 ^ (e2 + 52)) by (apply Z.pow_pos_nonneg; lia).
    assert (Z.pos m1 * 2 ^ (e1 + 52) <= Z.pos m2 * 2 ^ (e2 + 52)) by nia.
    rewrite H2 in *. nia. }
  assert (Hm : Zpos m1 <= 2 ^ (e2 - e1) * Zpos m2).
  { assert (H2 : 2 ^ (e2 + 52) = 2 ^ (e2 - e1) * 2 ^ (e1 + 52)).
    { rewrite <- Z.pow_add_r by lia. f_equal. lia. }
    assert (0 < 2 ^ (e1 + 52)) by (apply Z.pow_pos_nonneg; lia).
    assert (Z.pos m1 * 2 ^ (e1 + 52) <= Z.pos m2 * 2 ^ (e2 + 52)) by nia.
    rewrite H2 in *. nia. }
  unfold div, SFdiv, SFdiv_core_binary. cbn [Zdigits2 xorb].
  rewrite Hd1, Hd2.
  assert (Hf : Z.min (fexp prec emax (53 + e1 - (53 + e2))) (e1 - e2) = e1 - e2 - 53).
  { unfold fexp, SpecFloat.emin, prec, emax. lia. }
  rewrite Hf. replace (e1 - e2 - (e1 - e2 - 53)) with 53 by lia.
  rewrite Z.shiftl_mul_pow2 by lia.
  pose proof (Z_div_mod (Zpos m1 * 2 ^ 53) (Zpos m2) eq_refl) as Hdm.
  destruct (Z.div_eucl (Zpos m1 * 2 ^ 53) (Zpos m2)) as [q r].
  destruct Hdm as [Hqr Hr].
  assert (Hq0 : 0 <= q) by nia.
  set (e' := e1 - e2 - 53) in *.
  set (n := Z.max 0 (fexp prec emax (Zdigits2 q + e') - e')).
  assert (Hqlt : q < 2 ^ 54).
  { change (2 ^ 54) with (2 * 2 ^ 53). nia. }
  assert (Hdq : Zdigits2 q <= 54) by (apply Zdigits2_le; lia).
  assert (HE : e' + n <= 0).
  { subst n e'. unfold fexp, SpecFloat.emin, prec, emax. lia. }
  assert (Hn : 0 <= n) by (subst n; lia).
  assert (HK : 2 ^ (- (e' + n)) * 2 ^ n = 2 ^ 53 * 2 ^ (e2 - e1)).
  { rewrite <- !Z.pow_add_r by lia. f_equal. subst e'. lia. }
  assert (Hpe : 0 < 2 ^ (e2 - e1)) by (apply Z.pow_pos_nonneg; lia).
  destruct (binary_round_aux_le prec emax q e' (new_location (Zpos m2) r)
              (2 ^ (- (e' + n)))) as (m & k & Hk & Hm0 & Hmk & ->).
  - exact Hq0.
  - fold n. rewrite HK. nia.
  - fold n. rewrite HK. intros Hloc. apply new_location_exact in Hloc. nia.
  - fold n. destruct m as [|pm|pm]; [now left| |lia].
    right.
    assert (Hpk : 0 < 2 ^ k) by (apply Z.pow_pos_nonneg; lia).
    assert (Hkle : k <= - (e' + n)).
    { apply (Z.pow_le_mono_r_iff 2); [lia|lia|]. nia. }
    destruct (Z.leb_spec (e' + n + k) (emax - prec)) as [_|Hbad];
      [|unfold emax, prec in Hbad; lia].
    exists pm, (e' + n + k). split; [reflexivity|]. split; [lia|].
    replace (2 ^ (- (e' + n))) with (2 ^ (- (e' + n + k)) * 2 ^ k) in Hmk.
    + nia.
    + rewrite <- Z.pow_add_r by lia. f_equal. lia.
Qed.

Lemma floor_mul_100 x :
  atMostOne x ->
  exists z, floor (mul x (ofZ 100)) = Int z /\ 0 <= z <= 100.
Proof.
  change (ofZ 100) with (S754_finite false 7036874417766400 (-46)).
  intros [->|(m & e & -> & He & Hm)].
  { exists 0. simpl. split; [reflexivity|lia]. }
  unfold mul, SFmul. cbn [xorb].
  set (q := Zpos (m * 7036874417766400)).
  set (e0 := e + -46).
  set (n := Z.max 0 (fexp prec emax (Zdigits2 q + e0) - e0)).
  assert (Hpe : 0 < 2 ^ (- e)) by (apply Z.pow_pos_nonneg; lia).
  assert (Hq : q = Zpos m * (100 * 2 ^ 46)) by (subst q; rewrite Pos2Z.inj_mul; reflexivity).
  assert (Hqlt : q < 2 ^ (53 - e)).
  { replace (53 - e) with (- e + 53) by lia. rewrite Z.pow_add_r by lia.
    rewrite Hq. change (2 ^ 53) with (128 * 2 ^ 46). change (2 ^ 46) with 70368744177664.
    nia. }
  assert (Hdq : Zdigits2 q <= 53 - e) by (apply Zdigits2_le; lia).
  assert (HE : e0 + n <= -46).
  { subst n e0. unfold fexp, SpecFloat.emin, prec, emax. lia. }
  assert (Hn : 0 <= n) by (subst n; lia).
  assert (HK : 100 * 2 ^ (- (e0 + n)) * 2 ^ n = 100 * 2 ^ 46 * 2 ^ (- e)).
  { rewrite <- !Z.mul_assoc, <- !Z.pow_add_r by lia. do 2 f_equal. subst e0. lia. }
  destruct (binary_round_aux_le prec emax q e0 loc_Exact
              (100 * 2 ^ (- (e0 + n)))) as (m' & k & Hk & Hm0 & Hmk & ->).
  - subst q. lia.
  - fold n. rewrite HK, Hq. nia.
  - intros H. now elim H.
  - fold n. destruct m' as [|pm|pm]; [exists 0; simpl; split; [reflexivity|lia]| |lia].
    assert (Hpk : 0 < 2 ^ k) by (apply Z.pow_pos_nonneg; lia).
    set (E := e0 + n) in *.
    destruct (Z_le_gt_dec 0 (E + k)) as [Hpos|Hneg].
    + (* the result has a non-negative exponent: an integer up to 100 *)
      assert (Hval : Zpos pm * 2 ^ (E + k) <= 100).
      { assert (H2 : 2 ^ k = 2 ^ (E + k) * 2 ^ (- E)).
        { rewrite <- Z.pow_add_r by lia. f_equal. lia. }
        assert (0 < 2 ^ (- E)) by (apply Z.pow_pos_nonneg; lia).
        rewrite H2 in Hmk. nia. }
      assert (Hsmall : E + k <= 6).
      { assert (Hp : 0 < 2 ^ (E + k)) by (apply Z.pow_pos_nonneg; lia).
        assert (H7 : 2 ^ (E + k) < 2 ^ 7) by (change (2 ^ 7) with 128; nia).
        apply Z.pow_lt_mono_r_iff in H7; lia. }
      destruct (Z.leb_spec (E + k) (emax - prec)) as [_|Hbad];
        [|unfold emax, prec in Hbad; lia].
      exists (Zpos pm * 2 ^ (E + k)). cbn [floor cond_Zopp].
      rewrite Z.shiftl_mul_pow2 by lia. split; [reflexivity|].
      assert (0 < 2 ^ (E + k)) by (apply Z.pow_pos_nonneg; lia). nia.
    + destruct (Z.leb_spec (E + k) (emax - prec)) as [_|Hbad];
        [|unfold emax, prec in Hbad; lia].
      exists (Zpos pm / 2 ^ (- (E + k))). cbn [floor cond_Zopp].
      rewrite Z.shiftl_div_pow2 by lia. split; [reflexivity|].
      assert (Hp : 0 < 2 ^ (- (E + k))) by (apply Z.pow_pos_nonneg; lia).
      split; [apply Z.div_pos; lia|].
      apply Z.div_le_upper_bound; [lia|].
      assert (H2 : 2 ^ (- E) = 2 ^ (- (E + k)) * 2 ^ k).
      { rewrite <- Z.pow_add_r by lia. f_equal. lia. }
      rewrite H2 in Hmk. nia.
Qed.

(** The reported percentage of [processed] lines out of [total], for
    counter values with [1 <= processed <= total], is an integer between 0
    and 100. *)
Lemma percentOf_range processed total :
  1 <= processed <= total -> total <= 2 ^ 53 ->
  exists z, percentOf processed total = Int z /\ 0 <= z <= 100.
Proof.
  intros Hp Ht. unfold percentOf. apply floor_mul_100. now apply div_atMostOne.
Qed.

End PercentRange.

(** ** Facts about the derivation engine *)

Section EngineFacts.

Context {libs : CryptoLibs}.

Lemma addCalls_logCall c cs w :
  logCall c (addCalls cs w) = addCalls (cs ++ [c]) w.
Proof. unfold logCall, addCalls; simpl. now rewrite app_assoc. Qed.

Ltac frame_done :=
  unfold logCall, addCalls; simpl; repeat rewrite <- app_assoc; reflexivity.

(** The engine reads nothing of the world and only extends the call log. *)
Lemma deriveRippleAddress_frame mnemonic w :
  deriveRippleAddress mnemonic w =
  (engineResult mnemonic, addCalls (engineCalls mnemonic) w).
Proof.
  unfold engineResult, engineCalls, deriveRippleAddress, bind, extern, throw, ret.
  destruct (validateMnemonic mnemonic); simpl; [|reflexivity].
  destruct (mnemonicToSeed mnemonic) as [e|seed]; simpl; [frame_done|].
  destruct (fromSeedBuffer seed) as [e|root]; simpl; [frame_done|].
  destruct (derivePath root ripplePath) as [e|node]; simpl; [frame_done|].
  destruct (getKeyPairs (keyPair node)) as [e|kp]; simpl; [frame_done|].
  destruct (deriveAddress (publicKey kp)) as [e|a]; simpl; frame_done.
Qed.

(** The calls of one derivation, read off the package results. *)
Lemma engineCalls_invalid mnemonic :
  validateMnemonic mnemonic = false ->
  engineCalls mnemonic = [CallValidateMnemonic mnemonic]
  /\ engineResult mnemonic = Exn (JsError (lit "Invalid mnemonic")).
Proof.
  intros Hv. unfold engineCalls, engineResult, deriveRippleAddress, bind, extern, throw.
  rewrite Hv. simpl. split; reflexivity.
Qed.

Lemma derivePath_calls_use_ripplePath mnemonic c :
  In c (engineCalls mnemonic) -> isDerivePath c = true ->
  exists node, c = CallDerivePath node ripplePath.
Proof.
  unfold engineCalls, deriveRippleAddress, bind, extern, throw, ret.
  destruct (validateMnemonic mnemonic); simpl.
  2:{ intros [<-|[]]; discriminate. }
  destruct (mnemonicToSeed mnemonic) as [e|seed]; simpl.
  { intros [<-|[<-|[]]]; discriminate. }
  destruct (fromSeedBuffer seed) as [e|root]; simpl.
  { intros [<-|[<-|[<-|[]]]]; discriminate. }
  destruct (derivePath root ripplePath) as [e|node]; simpl.
  { intros [<-|[<-|[<-|[<-|[]]]]]; try discriminate. intros _. now exists root. }
  destruct (getKeyPairs (keyPair node)) as [e|kp]; simpl.
  { intros [<-|[<-|[<-|[<-|[<-|[]]]]]]; try discriminate. intros _. now exists root. }
  destruct (deriveAddress (publicKey kp)) as [e|a]; simpl;
    intros [<-|[<-|[<-|[<-|[<-|[<-|[]]]]]]]; try discriminate; intros _; now exists root.
Qed.

(** C1: determinism of the derivation engine.  Two runs of
    [deriveRippleAddress] on the same mnemonic text, started in any two
    worlds (any call history, any state of the sink, the console and the
    counters), return the same result: the same address string, or the
    same failure.  Both runs make the same calls into the packages and
    change nothing else. *)
Theorem deriveRippleAddress_deterministic (mnemonic : jsstring) (w1 w2 : World) :
  fst (deriveRippleAddress mnemonic w1) = fst (deriveRippleAddress mnemonic w2)
  /\ exists cs,
       snd (deriveRippleAddress mnemonic w1) = addCalls cs w1
       /\ snd (deriveRippleAddress mnemonic w2) = addCalls cs w2.
Proof.
  rewrite (deriveRippleAddress_frame mnemonic w1).
  rewrite (deriveRippleAddress_frame mnemonic w2).
  split; [reflexivity|].
  exists (engineCalls mnemonic). split; reflexivity.
Qed.

(** C3: the validation gate.  When [validateMnemonic] rejects the
    mnemonic, [deriveRippleAddress] throws [Error('Invalid mnemonic')], and
    the only call it has made into the packages is the validation itself:
    no seed expansion, no key derivation, no address encoding. *)
Theorem invalid_mnemonic_gate (mnemonic : jsstring) (w : World) :
  validateMnemonic mnemonic = false ->
  deriveRippleAddress mnemonic w =
    (Exn (JsError (lit "Invalid mnemonic")), logCall (CallValidateMnemonic mnemonic) w)
  /\ calls (snd (deriveRippleAddress mnemonic w)) =
       calls w ++ [CallValidateMnemonic mnemonic]
  /\ existsb isKeyDerivation (engineCalls mnemonic) = false.
Proof.
  intros Hv. destruct (engineCalls_invalid mnemonic Hv) as [Hc Hr].
  rewrite deriveRippleAddress_frame, Hc, Hr. repeat split.
Qed.

(** C4: the fixed derivation path.  The path literal handed to
    [derivePath] denotes 44' / 144' / 0' / 0 / 0, and every [derivePath]
    call of a derivation uses that literal.  For a valid mnemonic the seed
    expansion is always called, right after the validation.  When the
    packages return (the seed, its master node, the node at the end of the
    path, its key pair, the address of its public key), the derivation
    returns that address and has made exactly these six calls, in this
    order, each on the value the call before it returned.  Conversely an
    address is returned only in this way, and a derivation of a valid
    mnemonic that throws throws what a package threw. *)
Theorem derivation_walks_fixed_path (mnemonic : jsstring) (w : World) :
  validateMnemonic mnemonic = true ->
  Bip32Path.parse ripplePath = Some fixedPath
  /\ (forall c, In c (engineCalls mnemonic) -> isDerivePath c = true ->
       exists node, c = CallDerivePath node ripplePath)
  /\ (exists rest,
        snd (deriveRippleAddress mnemonic w) =
          addCalls (CallValidateMnemonic mnemonic :: CallMnemonicToSeed mnemonic
                      :: rest) w)
  /\ (forall seed root node kp address,
        mnemonicToSeed mnemonic = inr seed ->
        fromSeedBuffer seed = inr root ->
        derivePath root ripplePath = inr node ->
        getKeyPairs (keyPair node) = inr kp ->
        deriveAddress (publicKey kp) = inr address ->
        deriveRippleAddress mnemonic w =
          (Val address,
           addCalls [CallValidateMnemonic mnemonic; CallMnemonicToSeed mnemonic;
                     CallFromSeedBuffer seed; CallDerivePath root ripplePath;
                     CallGetKeyPairs (keyPair node);
                     CallDeriveAddress (publicKey kp)] w))
  /\ (forall address,
        fst (deriveRippleAddress mnemonic w) = Val address ->
        exists seed root node kp,
          mnemonicToSeed mnemonic = inr seed
          /\ fromSeedBuffer seed = inr root
          /\ derivePath root ripplePath = inr node
          /\ getKeyPairs (keyPair node) = inr kp
          /\ deriveAddress (publicKey kp) = inr address
          /\ snd (deriveRippleAddress mnemonic w) =
               addCalls [CallValidateMnemonic mnemonic; CallMnemonicToSeed mnemonic;
                         CallFromSeedBuffer seed; CallDerivePath root ripplePath;
                         CallGetKeyPairs (keyPair node);
                         CallDeriveAddress (publicKey kp)] w)
  /\ (forall err,
        fst (deriveRippleAddress mnemonic w) = Exn err ->
        exists e, err = LibThrown e).
Proof.
  intros Hv. split; [reflexivity|]. split.
  { intros c. apply derivePath_calls_use_ripplePath. }
  unfold deriveRippleAddress, bind, extern, throw, ret. rewrite Hv. simpl.
  destruct (mnemonicToSeed mnemonic) as [e|seed] eqn:Hseed; simpl.
  { split; [exists []; frame_done|].
    split; [intros ? ? ? ? ? [=]|]. split; [discriminate|].
    intros err [= <-]. now exists e. }
  destruct (fromSeedBuffer seed) as [e|root] eqn:Hroot; simpl.
  { split; [exists [CallFromSeedBuffer seed]; frame_done|].
    split; [intros ? ? ? ? ? [= <-] H; congruence|]. split; [discriminate|].
    intros err [= <-]. now exists e. }
  destruct (derivePath root ripplePath) as [e|node] eqn:Hnode; simpl.
  { split; [exists [CallFromSeedBuffer seed; CallDerivePath root ripplePath];
            frame_done|].
    split; [intros ? ? ? ? ? [= <-] H H'; congruence|]. split; [discriminate|].
    intros err [= <-]. now exists e. }
  destruct (getKeyPairs (keyPair node)) as [e|kp] eqn:Hkp; simpl.
  { split; [exists [CallFromSeedBuffer seed; CallDerivePath root ripplePath;
                    CallGetKeyPairs (keyPair node)]; frame_done|].
    split; [intros ? ? ? ? ? [= <-] H H' H''; congruence|].
    split; [discriminate|].
    intros err [= <-]. now exists e. }
  destruct (deriveAddress (publicKey kp)) as [e|a] eqn:Ha; simpl.
  { split; [exists [CallFromSeedBuffer seed; CallDerivePath root ripplePath;
                    CallGetKeyPairs (keyPair node);
                    CallDeriveAddress (publicKey kp)]; frame_done|].
    split; [intros ? ? ? ? ? [= <-] H H' H'' H3; congruence|].
    split; [discriminate|].
    intros err [= <-]. now exists e. }
  split; [exists [CallFromSeedBuffer seed; CallDerivePath root ripplePath;
                  CallGetKeyPairs (keyPair node);
                  CallDeriveAddress (publicKey kp)]; frame_done|].
  split.
  { intros seed' root' node' kp' address [= <-] H H' H'' H3.
    assert (root' = root) by congruence; subst root'.
    assert (node' = node) by congruence; subst node'.
    assert (kp' = kp) by congruence; subst kp'.
    assert (address = a) by congruence; subst address.
    f_equal. frame_done. }
  split; [|discriminate].
  intros address [= <-]. exists seed, root, node, kp. repeat split; trivial.
  frame_done.
Qed.

End EngineFacts.

(** ** Facts about trimming *)

Section TrimFacts.

Lemma trimStart_nil_iff s : trimStart s = [] <-> blank s = true.
Proof.
  unfold blank. induction s as [|c r IH]; simpl; [tauto|].
  destruct (is_white_space c); simpl; [exact IH|]. split; discriminate.
Qed.

Lemma trimStart_blank_false s : blank s = false -> blank (trimStart s) = false.
Proof.
  unfold blank. induction s as [|c r IH]; simpl; [discriminate|].
  destruct (is_white_space c) eqn:Hc; simpl; [exact IH|]. now rewrite Hc.
Qed.

Lemma blank_rev s : blank (rev s) = blank s.
Proof.
  unfold blank. induction s as [|c r IH]; simpl; [reflexivity|].
  rewrite forallb_app, IH. simpl. rewrite andb_true_r. apply andb_comm.
Qed.

(** A trimmed line is the empty string exactly when the line is blank. *)
Lemma truthy_trim line : truthy (trim line) = negb (blank line).
Proof.
  unfold trim, trimEnd. destruct (blank line) eqn:Hb; simpl.
  - apply trimStart_nil_iff in Hb. rewrite Hb. reflexivity.
  - assert (H : blank (trimStart (rev (trimStart line))) = false).
    { apply trimStart_blank_false. rewrite blank_rev.
      now apply trimStart_blank_false. }
    destruct (trimStart (rev (trimStart line))) as [|c r]; [discriminate|].
    simpl. destruct (rev r ++ [c]) eqn:E; [|reflexivity].
    now apply app_eq_nil in E as [_ [=]].
Qed.

End TrimFacts.

(** ** Facts about the counters *)

Section CounterFacts.

Local Open Scope Z_scope.

Lemma counterAfter_S k start :
  counterAfter (S k) start = JsNumber.incr (counterAfter k start).
Proof. reflexivity. Qed.

Lemma counterAfter_incr k start :
  counterAfter k (JsNumber.incr start) = counterAfter (S k) start.
Proof.
  unfold counterAfter. induction k as [|k IH]; simpl; [reflexivity|].
  now rewrite IH.
Qed.

(** Counting from zero is exact up to 2^53 and stays there. *)
Lemma counterAfter_0 k : counterAfter k 0 = Z.min (Z.of_nat k) (2 ^ 53).
Proof.
  induction k as [|k IH]; [reflexivity|].
  rewrite counterAfter_S, IH. unfold JsNumber.incr.
  destruct (Z.ltb_spec (Z.min (Z.of_nat k) (2 ^ 53)) (2 ^ 53)); lia.
Qed.

Lemma counterAfter_0_mono j n :
  (j <= n)%nat -> counterAfter j 0 <= counterAfter n 0.
Proof. intros H. rewrite !counterAfter_0. lia. Qed.

Lemma counterAfter_0_pos k : (1 <= k)%nat -> 1 <= counterAfter k 0 <= 2 ^ 53.
Proof. intros H. rewrite counterAfter_0. lia. Qed.

End CounterFacts.

(** ** Facts about the batch runner *)

Section RunnerFacts.

Context {libs : CryptoLibs}.
Variable env : Env.

(** The loop body is its first half followed by the progress report. *)
Lemma processLine_split line w :
  processLine env line w =
  match handleLine env line w with
  | (Val _, w') => (Val tt, tick w')
  | (Exn e, w') => (Exn e, w')
  end.
Proof.
  unfold processLine, handleLine, bind.
  destruct (truthy (trim line)); simpl.
  - destruct (tryCatch _ _ w) as [[[]|e] w']; reflexivity.
  - reflexivity.
Qed.

(** When the next write succeeds, the first half of the loop body returns
    normally with the record of the line written. *)
Lemma handleLine_ok line w :
  sinkOk env (writes w) = true ->
  handleLine env line w = (Val tt, afterHandle line w).
Proof.
  intros Hok. unfold handleLine, afterHandle, tryCatch, bind.
  destruct (truthy (trim line)); [|reflexivity].
  rewrite deriveRippleAddress_frame.
  destruct (engineResult (trim line)) as [a|e]; unfold writeChunk, modify; simpl;
    rewrite Hok; reflexivity.
Qed.

(** A blank line needs no write at all. *)
Lemma handleLine_blank line w :
  blank line = true -> handleLine env line w = (Val tt, w).
Proof.
  intros Hb. unfold handleLine. now rewrite truthy_trim, Hb.
Qed.

(** Whatever the sink does, the first half of the loop body leaves the
    console output and the counters alone. *)
Lemma handleLine_frame line w :
  let w' := snd (handleLine env line w) in
  stdout w' = stdout w /\ totalLines w' = totalLines w
  /\ processedLines w' = processedLines w.
Proof.
  unfold handleLine, tryCatch, bind.
  destruct (truthy (trim line)); [|simpl; auto].
  rewrite deriveRippleAddress_frame.
  destruct (engineResult (trim line)) as [a|e]; unfold writeChunk, modify; simpl.
  - destruct (sinkOk env (writes w)); simpl; auto.
    destruct (sinkOk env (S (writes w))); simpl; auto.
  - destruct (sinkOk env (writes w)); simpl; auto.
Qed.

Lemma processLine_ok line w :
  sinkOk env (writes w) = true ->
  processLine env line w = (Val tt, afterLine line w).
Proof.
  intros Hok. now rewrite processLine_split, handleLine_ok.
Qed.

Lemma forEach_processLine_ok lines :
  (forall n, sinkOk env n = true) ->
  forall w, forEach lines (processLine env) w = (Val tt, afterLines lines w).
Proof.
  intros Hok. induction lines as [|l r IH]; intros w; [reflexivity|].
  simpl. unfold bind. rewrite processLine_ok by apply Hok. apply IH.
Qed.

(** *** What the lines leave in the world when every write succeeds *)

Lemma afterHandle_sink line w :
  sink (afterHandle line w) =
  sink w ++ match expectedRecord line with Some r => [r] | None => [] end.
Proof.
  unfold afterHandle, expectedRecord. rewrite truthy_trim.
  destruct (blank line); simpl; [now rewrite app_nil_r|].
  destruct (engineResult (trim line)); reflexivity.
Qed.

Lemma afterHandle_counters line w :
  totalLines (afterHandle line w) = totalLines w
  /\ processedLines (afterHandle line w) = processedLines w
  /\ stdout (afterHandle line w) = stdout w.
Proof.
  unfold afterHandle. destruct (truthy (trim line)); [|auto].
  destruct (engineResult (trim line)); simpl; auto.
Qed.

Lemma afterLines_sink lines : forall w,
  sink (afterLines lines w) = sink w ++ expectedRecords lines.
Proof.
  induction lines as [|l r IH]; intros w; simpl; [now rewrite app_nil_r|].
  unfold afterLines in *. simpl. rewrite IH. unfold afterLine, tick; simpl.
  rewrite afterHandle_sink. now rewrite <- app_assoc.
Qed.

Lemma afterLines_totalLines lines : forall w,
  totalLines (afterLines lines w) = totalLines w.
Proof.
  induction lines as [|l r IH]; intros w; simpl; [reflexivity|].
  unfold afterLines in *. simpl. rewrite IH. unfold afterLine, tick; simpl.
  apply afterHandle_counters.
Qed.

Lemma afterLines_processedLines lines : forall w,
  processedLines (afterLines lines w) =
  counterAfter (List.length lines) (processedLines w).
Proof.
  induction lines as [|l r IH]; intros w; [reflexivity|].
  unfold afterLines in *. simpl fold_left. rewrite IH.
  unfold afterLine, tick; simpl processedLines.
  destruct (afterHandle_counters l w) as (_ & -> & _).
  apply counterAfter_incr.
Qed.

(** *** The counting pass *)

Lemma forEach_countLine lines : forall w,
  forEach lines (@countLine libs) w =
  (Val tt, setTotalLines (counterAfter (List.length lines) (totalLines w)) w).
Proof.
  induction lines as [|l r IH]; intros w.
  - destruct w; reflexivity.
  - simpl forEach. unfold bind at 1. unfold countLine at 1, bind, gets, modify.
    rewrite IH. simpl. now rewrite counterAfter_incr.
Qed.

(** The run: the counting pass, then the processing pass from
    [countedWorld], then the end of the stream and the completion notice
    unless a rejection left the loop. *)
Lemma deriveAddressesFromFile_unfold inputFilePath outputFilePath w :
  deriveAddressesFromFile env inputFilePath outputFilePath w =
  match forEach (secondRead env inputFilePath) (processLine env)
                (countedWorld env inputFilePath w) with
  | (Val _, w') => (Val tt, pushStdout (completionNotice outputFilePath) (endSink w'))
  | (Exn e, w') => (Exn e, w')
  end.
Proof.
  unfold deriveAddressesFromFile, onClose, bind at 1 2.
  unfold tryCatch, bind at 1 2, modify. simpl.
  unfold bind at 1. rewrite forEach_countLine. simpl.
  unfold bind at 1. unfold countedWorld.
  destruct (forEach _ _ _) as [[[]|e] w']; reflexivity.
Qed.

(** *** The progress reports, whatever the sink does *)

Lemma progressLines_S total start j :
  progressLines total start (S j) =
  progressAt total start 1 :: progressLines total (JsNumber.incr start) j.
Proof.
  unfold progressLines. simpl. f_equal.
  rewrite <- seq_shift, map_map. apply map_ext. intros k.
  unfold progressAt. now rewrite counterAfter_incr.
Qed.

Lemma forEach_processLine_progress lines : forall w,
  let r := fst (forEach lines (processLine env) w) in
  let w' := snd (forEach lines (processLine env) w) in
  totalLines w' = totalLines w
  /\ exists j, (j <= List.length lines)%nat
     /\ stdout w' = stdout w ++ progressLines (totalLines w) (processedLines w) j
     /\ processedLines w' = counterAfter j (processedLines w)
     /\ (r = Val tt -> j = List.length lines).
Proof.
  induction lines as [|l rest IH]; intros w; simpl.
  - split; [reflexivity|]. exists 0%nat. unfold progressLines; simpl.
    rewrite app_nil_r. auto.
  - unfold bind. rewrite processLine_split.
    pose proof (handleLine_frame l w) as (Hs & Ht & Hp).
    destruct (handleLine env l w) as [[[]|e] w1]; simpl in Hs, Ht, Hp.
    + specialize (IH (tick w1)). simpl in IH.
      destruct IH as (Ht' & j & Hj & Hout & Hproc & Hdone).
      split; [rewrite Ht'; simpl; exact Ht|].
      exists (S j). split; [simpl; lia|].
      split.
      { rewrite Hout. simpl. rewrite progressLines_S, Hs, Ht, Hp.
        now rewrite <- app_assoc. }
      split.
      { rewrite Hproc. simpl. rewrite Hp. apply counterAfter_incr. }
      intros Hr. simpl. f_equal. auto.
    + simpl. split; [exact Ht|]. exists 0%nat. unfold progressLines; simpl.
      rewrite app_nil_r. repeat split; auto; try lia. discriminate.
Qed.

(** *** Records and their order *)

Lemma afterLines_app l1 l2 w :
  afterLines (l1 ++ l2) w = afterLines l2 (afterLines l1 w).
Proof. unfold afterLines. apply fold_left_app. Qed.

Lemma afterHandle_stderr line w x :
  In x (stderr w) -> In x (stderr (afterHandle line w)).
Proof.
  unfold afterHandle. destruct (truthy (trim line)); [|auto].
  destruct (engineResult (trim line)); simpl; auto.
  intros H. apply in_or_app. now left.
Qed.

Lemma afterLines_stderr lines : forall w x,
  In x (stderr w) -> In x (stderr (afterLines lines w)).
Proof.
  induction lines as [|l r IH]; intros w x H; [exact H|].
  unfold afterLines in *. simpl. apply IH. unfold afterLine, tick; simpl.
  now apply afterHandle_stderr.
Qed.

Lemma expectedRecords_app l1 l2 :
  expectedRecords (l1 ++ l2) = expectedRecords l1 ++ expectedRecords l2.
Proof. unfold expectedRecords. apply flat_map_app. Qed.

Lemma expectedRecord_payload line :
  blank line = false ->
  expectedRecord line = Some (trim line ++ lit "|" ++ payloadOf line ++ LF).
Proof.
  intros Hb. unfold expectedRecord, payloadOf, successRecord, errorRecord.
  rewrite Hb. destruct (engineResult (trim line)); reflexivity.
Qed.

Lemma expectedRecords_nonBlank lines :
  expectedRecords lines =
  map (fun line => trim line ++ lit "|" ++ payloadOf line ++ LF) (nonBlankLines lines).
Proof.
  unfold expectedRecords, nonBlankLines.
  induction lines as [|l r IH]; simpl; [reflexivity|].
  destruct (blank l) eqn:Hb; simpl.
  - unfold expectedRecord. rewrite Hb. exact IH.
  - rewrite expectedRecord_payload by exact Hb. simpl. now rewrite IH.
Qed.

(** The whole run when every write succeeds. *)
Lemma deriveAddressesFromFile_ok inputFilePath outputFilePath w :
  (forall n, sinkOk env n = true) ->
  deriveAddressesFromFile env inputFilePath outputFilePath w =
  (Val tt,
   pushStdout (completionNotice outputFilePath)
     (endSink (afterLines (secondRead env inputFilePath)
                          (countedWorld env inputFilePath w)))).
Proof.
  intros Hok. rewrite deriveAddressesFromFile_unfold.
  now rewrite forEach_processLine_ok.
Qed.

(** *** Rejections that leave the loop *)

(** Only a failed write makes the first half of the loop body reject: a
    thrown derivation error is always caught. *)
Lemma handleLine_rejects line w err :
  fst (handleLine env line w) = Exn err ->
  exists n, err = WriteFailed n /\ sinkOk env n = false.
Proof.
  unfold handleLine, tryCatch, bind.
  destruct (truthy (trim line)); [|discriminate].
  rewrite deriveRippleAddress_frame.
  destruct (engineResult (trim line)) as [a|e]; unfold writeChunk, modify; simpl.
  - destruct (sinkOk env (writes w)) eqn:H0; simpl; [discriminate|].
    destruct (sinkOk env (S (writes w))) eqn:H1; simpl; [discriminate|].
    intros [= <-]. eauto.
  - destruct (sinkOk env (writes w)) eqn:H0; simpl; [discriminate|].
    intros [= <-]. eauto.
Qed.

Lemma forEach_processLine_rejects lines : forall w err,
  fst (forEach lines (processLine env) w) = Exn err ->
  exists n, err = WriteFailed n /\ sinkOk env n = false.
Proof.
  induction lines as [|l rest IH]; intros w err; simpl; [discriminate|].
  unfold bind. rewrite processLine_split.
  pose proof (handleLine_rejects l w) as Hl.
  destruct (handleLine env l w) as [[[]|e] w1]; simpl in *.
  - apply IH.
  - intros [= <-]. now apply Hl.
Qed.

(** C2: failure isolation.  Whatever the sink does, the only rejection that
    can end the run is a failed write: an error thrown while deriving an
    address never leaves the loop body.  And with a sink that takes its
    writes, a line whose derivation throws (whatever the error) does not stop
    the run: the run returns normally and ends the stream, the error is
    caught in the loop body and logged, and the sink holds the records of
    the lines before it, then the error record of that line, then the
    records of all lines after it. *)
Theorem derivation_failure_isolated
    (inputFilePath outputFilePath : jsstring) (w : World) :
  let r := fst (deriveAddressesFromFile env inputFilePath outputFilePath w) in
  let w' := snd (deriveAddressesFromFile env inputFilePath outputFilePath w) in
  (forall err, r = Exn err -> exists n, err = WriteFailed n /\ sinkOk env n = false)
  /\ ((forall n, sinkOk env n = true) ->
      forall (before after : list jsstring) (line : jsstring) (e : JsErr),
        secondRead env inputFilePath = before ++ line :: after ->
        blank line = false ->
        fst (deriveRippleAddress (trim line) initialWorld) = Exn e ->
        r = Val tt
        /\ ended w' = true
        /\ sink w' = expectedRecords before
                     ++ [trim line ++ lit "|Error deriving address" ++ LF]
                     ++ expectedRecords after
        /\ In (lit "Error deriving address for mnemonic: " ++ trim line, e) (stderr w')
        /\ processedLines w' = counterAfter (List.length (before ++ line :: after)) 0).
Proof.
  intros r w'. subst r w'. split.
  { intros err. rewrite deriveAddressesFromFile_unfold.
    pose proof (forEach_processLine_rejects (secondRead env inputFilePath)
                  (countedWorld env inputFilePath w)) as Hrej.
    destruct (forEach _ _ _) as [[[]|e'] w2]; simpl in *; [discriminate|].
    intros [= <-]. now apply Hrej. }
  intros Hok before after line e Hlines Hb He.
  rewrite deriveAddressesFromFile_ok by exact Hok. simpl.
  rewrite Hlines. split; [reflexivity|]. split; [reflexivity|]. split; [|split].
  - rewrite afterLines_sink. simpl.
    rewrite expectedRecords_app. simpl. f_equal.
    unfold expectedRecord at 1. rewrite Hb.
    fold (engineResult (trim line)) in He. rewrite He. reflexivity.
  - rewrite afterLines_app. change (line :: after) with ([line] ++ after).
    rewrite afterLines_app. apply afterLines_stderr.
    unfold afterLines, afterLine, tick, afterHandle; simpl.
    rewrite truthy_trim, Hb. simpl.
    fold (engineResult (trim line)) in He. rewrite He. simpl.
    apply in_or_app. right. now left.
  - rewrite afterLines_processedLines. reflexivity.
Qed.

(** *** Order of the records, whatever the sink does *)

Lemma handleLine_sink line w :
  exists extra,
    sink (snd (handleLine env line w)) = sink w ++ extra
    /\ (extra = [] \/ (blank line = false /\ exists c, extra = [c] /\ isRecordOf line c)).
Proof.
  unfold handleLine, tryCatch, bind. rewrite truthy_trim.
  destruct (blank line) eqn:Hb; simpl.
  { exists []. rewrite app_nil_r. auto. }
  rewrite deriveRippleAddress_frame.
  assert (Herr : isRecordOf line (errorRecord (trim line))) by (right; reflexivity).
  destruct (engineResult (trim line)) as [a|e] eqn:He; unfold writeChunk, modify; simpl.
  - destruct (sinkOk env (writes w)); simpl.
    + exists [successRecord (trim line) a]. split; [reflexivity|]. right.
      split; [reflexivity|]. eexists. split; [reflexivity|].
      left. unfold payloadOf. now rewrite He.
    + destruct (sinkOk env (S (writes w))); simpl.
      * exists [errorRecord (trim line)]. split; [reflexivity|]. right. eauto.
      * exists []. rewrite app_nil_r. auto.
  - destruct (sinkOk env (writes w)); simpl.
    + exists [errorRecord (trim line)]. split; [reflexivity|]. right. eauto.
    + exists []. rewrite app_nil_r. auto.
Qed.

Lemma Subsequence_nil {A} (l : list A) : Subsequence [] l.
Proof. induction l; constructor; assumption. Qed.

Lemma forEach_processLine_sink lines : forall w,
  exists kept extra,
    sink (snd (forEach lines (processLine env) w)) = sink w ++ extra
    /\ Subsequence kept (nonBlankLines lines)
    /\ Forall2 isRecordOf kept extra.
Proof.
  induction lines as [|l rest IH]; intros w; simpl.
  { exists [], []. rewrite app_nil_r. repeat constructor. }
  unfold bind. rewrite processLine_split.
  destruct (handleLine_sink l w) as (extra & Hsink & Hextra).
  destruct (handleLine env l w) as [[[]|e] w1]; simpl in Hsink |- *.
  - destruct (IH (tick w1)) as (kept & more & Hs & Hsub & Hrec).
    change (sink (tick w1)) with (sink w1) in Hs. rewrite Hs, Hsink, <- app_assoc.
    destruct Hextra as [->|(Hb & c & -> & Hc)].
    + exists kept, more. split; [reflexivity|]. split; [|exact Hrec].
      unfold nonBlankLines in *. simpl. destruct (negb (blank l)); [apply sub_skip|]; exact Hsub.
    + exists (l :: kept), (c :: more). split; [reflexivity|]. split.
      * unfold nonBlankLines in *. simpl. rewrite Hb. simpl. now apply sub_take.
      * now constructor.
  - rewrite Hsink. destruct Hextra as [->|(Hb & c & -> & Hc)].
    + exists [], []. split; [reflexivity|]. split; [apply Subsequence_nil|constructor].
    + exists [l], [c]. split; [reflexivity|]. split.
      * unfold nonBlankLines. simpl. rewrite Hb. simpl. apply sub_take, Subsequence_nil.
      * constructor; [exact Hc|constructor].
Qed.

(** C5: order preservation.  Whatever the sink does, the chunks it holds at
    the end are records of non-blank lines of the input, at most one per
    line and in the order of the lines.  With a sink that takes its writes
    there is exactly one record per non-blank line: the sink has as many
    chunks as the input has non-blank lines, and the [i]-th chunk is the
    trimmed text of the [i]-th non-blank line, a bar, the address or the
    error sentinel, and a line feed. *)
Theorem records_follow_input_order
    (inputFilePath outputFilePath : jsstring) (w : World) :
  let lines := nonBlankLines (secondRead env inputFilePath) in
  let w' := snd (deriveAddressesFromFile env inputFilePath outputFilePath w) in
  (exists kept, Subsequence kept lines /\ Forall2 isRecordOf kept (sink w'))
  /\ ((forall n, sinkOk env n = true) ->
      List.length (sink w') = List.length lines
      /\ forall i line, nth_error lines i = Some line ->
           nth_error (sink w') i = Some (trim line ++ lit "|" ++ payloadOf line ++ LF)).
Proof.
  intros lines w'. subst lines w'. split.
  { rewrite deriveAddressesFromFile_unfold.
    destruct (forEach_processLine_sink (secondRead env inputFilePath)
                (countedWorld env inputFilePath w)) as (kept & extra & Hs & Hsub & Hrec).
    exists kept. split; [exact Hsub|].
    destruct (forEach _ _ _) as [[[]|e] w2]; simpl in *; rewrite Hs; exact Hrec. }
  intros Hok.
  rewrite deriveAddressesFromFile_ok by exact Hok. simpl.
  rewrite afterLines_sink. simpl. rewrite expectedRecords_nonBlank. split.
  - apply length_map.
  - intros i line H. now rewrite nth_error_map, H.
Qed.

(** C6 (amended): record format.  For a non-blank line, when the write of
    its record succeeds, the loop body returns normally and appends to the
    sink one chunk: the trimmed text of the line, a bar, and then either the
    derived address or the sentinel [Error deriving address], ended by a
    line feed. *)
Theorem record_format (line : jsstring) (w : World) :
  blank line = false ->
  sinkOk env (writes w) = true ->
  fst (processLine env line w) = Val tt
  /\ sink (snd (processLine env line w)) =
       sink w ++ [match fst (deriveRippleAddress (trim line) w) with
                  | Val address => trim line ++ lit "|" ++ address ++ LF
                  | Exn _ => trim line ++ lit "|Error deriving address" ++ LF
                  end].
Proof.
  intros Hb Hok. rewrite processLine_ok by exact Hok. split; [reflexivity|].
  unfold afterLine, tick; simpl. rewrite afterHandle_sink.
  unfold expectedRecord. rewrite Hb, deriveRippleAddress_frame. simpl.
  destruct (engineResult (trim line)); reflexivity.
Qed.

(** C7: blank lines.  A blank line makes the loop body return normally,
    whatever the sink does, with nothing written and no write attempted, no
    call into the packages and nothing logged; the processed counter is
    incremented; and the ['line'] listener of the counting pass increments
    [totalLines] for it as for any line. *)
Theorem blank_line_skipped (line : jsstring) (w : World) :
  blank line = true ->
  let w' := snd (processLine env line w) in
  fst (processLine env line w) = Val tt
  /\ sink w' = sink w /\ writes w' = writes w
  /\ calls w' = calls w /\ stderr w' = stderr w
  /\ processedLines w' = JsNumber.incr (processedLines w)
  /\ ((processedLines w < 2 ^ 53)%Z -> processedLines w' = (processedLines w + 1)%Z)
  /\ fst (@countLine libs line w) = Val tt
  /\ totalLines (snd (@countLine libs line w)) = JsNumber.incr (totalLines w)
  /\ ((totalLines w < 2 ^ 53)%Z ->
      totalLines (snd (@countLine libs line w)) = (totalLines w + 1)%Z).
Proof.
  intros Hb w'. subst w'.
  rewrite processLine_split, handleLine_blank by exact Hb.
  cbn -[Z.pow JsNumber.incr].
  repeat (split; [reflexivity|]). split; [|split; [reflexivity|split; [reflexivity|]]].
  - intros H. unfold JsNumber.incr. apply Z.ltb_lt in H. now rewrite H.
  - intros H. unfold JsNumber.incr. apply Z.ltb_lt in H. now rewrite H.
Qed.

(** *** The progress percentage *)

Lemma countedWorld_fields inputFilePath w :
  totalLines (countedWorld env inputFilePath w) =
    counterAfter (List.length (firstRead env inputFilePath)) 0
  /\ processedLines (countedWorld env inputFilePath w) = 0%Z
  /\ stdout (countedWorld env inputFilePath w) = stdout w
  /\ calls (countedWorld env inputFilePath w) = calls w.
Proof. repeat split. Qed.

(** C10: the progress division is safe.  When both passes read the same
    lines, the console holds, after what it held before, the progress lines
    of the first [j] lines of the processing pass (all of them when the run
    completes, followed then by the completion notice), and for each of
    them the divisor [totalLines] is positive, the processed count lies
    between 1 and [totalLines], and the percentage
    [Math.floor((processedLines / totalLines) * 100)], computed in binary64,
    is an integer between 0 and 100. *)
Theorem progress_percent_in_range
    (inputFilePath outputFilePath : jsstring) (w : World) :
  firstRead env inputFilePath = secondRead env inputFilePath ->
  let r := fst (deriveAddressesFromFile env inputFilePath outputFilePath w) in
  let w' := snd (deriveAddressesFromFile env inputFilePath outputFilePath w) in
  exists j,
    (j <= List.length (secondRead env inputFilePath))%nat
    /\ (r = Val tt -> j = List.length (secondRead env inputFilePath))
    /\ stdout w' =
         stdout w ++ progressLines (totalLines w') 0 j
                  ++ match r with
                     | Val _ => [completionNotice outputFilePath]
                     | Exn _ => []
                     end
    /\ forall k, (1 <= k <= j)%nat ->
         let processed := counterAfter k 0 in
         let total := totalLines w' in
         (0 < total)%Z
         /\ (1 <= processed <= total)%Z
         /\ exists z, JsNumber.percentOf processed total = JsNumber.Int z
                      /\ (0 <= z <= 100)%Z.
Proof.
  intros Hsame r w'. subst r w'.
  rewrite deriveAddressesFromFile_unfold.
  pose proof (forEach_processLine_progress (secondRead env inputFilePath)
                (countedWorld env inputFilePath w)) as Hprog.
  cbv zeta in Hprog.
  destruct (countedWorld_fields inputFilePath w) as (Ht0 & Hp0 & Hs0 & _).
  rewrite Ht0, Hp0, Hs0, Hsame in Hprog.
  destruct Hprog as (Ht & j & Hj & Hout & _ & Hdone).
  exists j. split; [exact Hj|].
  assert (Hrange : forall total, total = counterAfter (List.length (secondRead env inputFilePath)) 0 ->
            forall k, (1 <= k <= j)%nat ->
            (0 < total)%Z /\ (1 <= counterAfter k 0 <= total)%Z
            /\ exists z, JsNumber.percentOf (counterAfter k 0) total = JsNumber.Int z
                         /\ (0 <= z <= 100)%Z).
  { intros total -> k Hk.
    pose proof (counterAfter_0_pos k (proj1 Hk)) as Hk1.
    pose proof (@counterAfter_0_mono k (List.length (secondRead env inputFilePath))
                  ltac:(lia)) as Hmono.
    pose proof (counterAfter_0_pos (List.length (secondRead env inputFilePath))
                  ltac:(lia)) as Hn1.
    split; [lia|]. split; [lia|].
    apply percentOf_range; lia. }
  destruct (forEach _ _ _) as [[[]|e] w2]; cbn [fst snd] in *.
  - split; [exact Hdone|]. split.
    + cbn [stdout pushStdout endSink totalLines]. rewrite Hout, Ht.
      now rewrite <- app_assoc.
    + cbn [totalLines pushStdout endSink]. apply Hrange. exact Ht.
  - split; [exact Hdone|]. split.
    + rewrite Hout, Ht. now rewrite app_nil_r.
    + apply Hrange. exact Ht.
Qed.

End RunnerFacts.

(** ** Runs on the demo instance *)

Module DemoRuns.

Import Demo.

#[local] Existing Instance demoLibs.

Example demo_run :
  let w' := snd (deriveAddressesFromFile (goodEnv sampleLines)
                   inputFilePath outputFilePath initialWorld) in
  sink w' = [phrase ++ lit "|" ++ phraseAddress ++ LF;
             garbage ++ lit "|Error deriving address" ++ LF;
             poisoned ++ lit "|Error deriving address" ++ LF;
             phrase ++ lit "|" ++ phraseAddress ++ LF]
  /\ totalLines w' = 6%Z /\ processedLines w' = 6%Z
  /\ nth_error (stdout w') 2 = Some ([13%N] ++ lit "Processing... 50% (3/6)")
  /\ map snd (stderr w') =
       [JsError (lit "Invalid mnemonic"); LibThrown (lit "seed expansion failed")].
Proof. vm_compute. repeat split. Qed.

(** C6, as stated, fails: a line with a leading space gets a record that
    starts with its trimmed text, not with the text as it was read. *)
Lemma record_of_original_line_counterexample :
  let lines := [lit " not a mnemonic"] in
  let w' := snd (deriveAddressesFromFile (goodEnv lines)
                   inputFilePath outputFilePath initialWorld) in
  sink w' = [lit "not a mnemonic|Error deriving address" ++ LF]
  /\ map recordOfOriginalLine lines = [lit " not a mnemonic|Error deriving address" ++ LF]
  /\ sink w' <> map recordOfOriginalLine lines.
Proof. vm_compute. split; [reflexivity|]. split; [reflexivity|discriminate]. Qed.

(** C8: after the 29th of 100 lines the run prints 28%, while the integer
    part of 29 / 100 * 100 is 29: the quotient 29/100 is rounded to a double
    below 0.29, and its product by 100 to a double below 29. *)
Theorem progress_percent_below_exact :
  let lines := repeat garbage 100 in
  let w' := snd (deriveAddressesFromFile (goodEnv lines)
                   inputFilePath outputFilePath initialWorld) in
  totalLines w' = 100%Z
  /\ nth_error (stdout w') 28 = Some ([13%N] ++ lit "Processing... 28% (29/100)")
  /\ JsNumber.percentOf 29 100 = JsNumber.Int 28
  /\ exactPercent 29 100 = 29%Z.
Proof. vm_compute. repeat split. Qed.

(** C9: a failed write of a success record is caught by the [catch] of the
    loop body.  With a sink that refuses every write, the failure of the
    first write is logged as a derivation error although the address was
    derived, the write of an error record is attempted and rejected in turn,
    and that rejection leaves the ['close'] listener unhandled: the stream
    is not ended and the [catch] of [deriveAddressesFromFile] reports
    nothing: the only entry on the error channel is the per-line one. *)
Theorem write_failure_caught_per_line :
  let always := deriveAddressesFromFile (flakyEnv [phrase] (fun _ => true))
                  inputFilePath outputFilePath initialWorld in
  engineResult phrase = Val phraseAddress
  /\ fst always = Exn (WriteFailed 1)
  /\ sink (snd always) = []
  /\ writes (snd always) = 2%nat
  /\ ended (snd always) = false
  /\ stderr (snd always) =
       [(lit "Error deriving address for mnemonic: " ++ phrase, WriteFailed 0)].
Proof. vm_compute. repeat split. Qed.

(** *** The theorems at concrete inputs *)

Lemma invalid_mnemonic_gate_witness :
  validateMnemonic garbage = false
  /\ (deriveRippleAddress garbage initialWorld =
        (Exn (JsError (lit "Invalid mnemonic")),
         logCall (CallValidateMnemonic garbage) initialWorld)
      /\ calls (snd (deriveRippleAddress garbage initialWorld)) =
           calls initialWorld ++ [CallValidateMnemonic garbage]
      /\ existsb isKeyDerivation (engineCalls garbage) = false).
Proof.
  split; [reflexivity|].
  exact (@invalid_mnemonic_gate demoLibs garbage initialWorld eq_refl).
Defined.

Lemma derivation_walks_fixed_path_witness :
  validateMnemonic phrase = true
  /\ Bip32Path.parse ripplePath = Some fixedPath
  /\ (forall c, In c (engineCalls phrase) -> isDerivePath c = true ->
       exists node, c = CallDerivePath node ripplePath)
  /\ deriveRippleAddress phrase initialWorld =
       (Val phraseAddress,
        addCalls [CallValidateMnemonic phrase; CallMnemonicToSeed phrase;
                  CallFromSeedBuffer phrase;
                  CallDerivePath (phrase, lit "m") ripplePath;
                  CallGetKeyPairs (phrase, ripplePath);
                  CallDeriveAddress (lit "pub:m/44'/144'/0'/0/0:93")]
          initialWorld).
Proof.
  split; [reflexivity|].
  destruct (@derivation_walks_fixed_path demoLibs phrase initialWorld eq_refl)
    as (Hpath & Hcalls & _ & Haddr & _).
  split; [exact Hpath|]. split; [exact Hcalls|].
  exact (Haddr phrase (phrase, lit "m") (phrase, ripplePath)
           {| privateKey := lit "prv:" ++ phrase;
              publicKey := lit "pub:m/44'/144'/0'/0/0:93" |}
           phraseAddress eq_refl eq_refl eq_refl eq_refl eq_refl).
Defined.

Lemma derivation_failure_isolated_witness :
  let env := goodEnv sampleLines in
  let w' := snd (deriveAddressesFromFile env inputFilePath outputFilePath
                   initialWorld) in
  (forall n, sinkOk env n = true)
  /\ secondRead env inputFilePath =
       [lit "  " ++ phrase ++ lit " "; garbage; lit "  "; lit ""]
       ++ poisoned :: [phrase]
  /\ blank poisoned = false
  /\ fst (deriveRippleAddress (trim poisoned) initialWorld) =
       Exn (@LibThrown demoLibs (lit "seed expansion failed"))
  /\ fst (deriveAddressesFromFile env inputFilePath outputFilePath initialWorld)
     = Val tt
  /\ ended w' = true
  /\ sink w' =
       expectedRecords [lit "  " ++ phrase ++ lit " "; garbage; lit "  "; lit ""]
       ++ [trim poisoned ++ lit "|Error deriving address" ++ LF]
       ++ expectedRecords [phrase].
Proof.
  intros env w'.
  split; [reflexivity|]. split; [reflexivity|]. split; [reflexivity|].
  split; [reflexivity|].
  destruct (proj2 (@derivation_failure_isolated demoLibs env inputFilePath
                     outputFilePath initialWorld)
              (fun _ => eq_refl)
              [lit "  " ++ phrase ++ lit " "; garbage; lit "  "; lit ""]
              [phrase] poisoned (@LibThrown demoLibs (lit "seed expansion failed"))
              eq_refl eq_refl eq_refl)
    as (Hr & Hend & Hsink & _).
  split; [exact Hr|]. split; [exact Hend|exact Hsink].
Defined.

Lemma records_follow_input_order_witness :
  let env := goodEnv sampleLines in
  let w' := snd (deriveAddressesFromFile env inputFilePath outputFilePath
                   initialWorld) in
  (forall n, sinkOk env n = true)
  /\ nonBlankLines (secondRead env inputFilePath) =
       [lit "  " ++ phrase ++ lit " "; garbage; poisoned; phrase]
  /\ List.length (sink w') = 4%nat
  /\ nth_error (sink w') 0 = Some (phrase ++ lit "|" ++ phraseAddress ++ LF)
  /\ nth_error (sink w') 1 =
       Some (garbage ++ lit "|" ++ lit "Error deriving address" ++ LF).
Proof.
  intros env w'. split; [reflexivity|]. split; [reflexivity|].
  destruct (proj2 (@records_follow_input_order demoLibs env inputFilePath
                     outputFilePath initialWorld) (fun _ => eq_refl))
    as (Hlen & Hnth).
  split; [exact Hlen|]. split.
  - exact (Hnth 0%nat (lit "  " ++ phrase ++ lit " ") eq_refl).
  - exact (Hnth 1%nat garbage eq_refl).
Defined.

Lemma record_format_witness :
  let env := goodEnv sampleLines in
  let line := lit "  " ++ phrase ++ lit " " in
  blank line = false
  /\ sinkOk env (writes initialWorld) = true
  /\ fst (processLine env line initialWorld) = Val tt
  /\ sink (snd (processLine env line initialWorld)) =
       [phrase ++ lit "|" ++ phraseAddress ++ LF].
Proof.
  intros env line. split; [reflexivity|]. split; [reflexivity|].
  exact (@record_format demoLibs env line initialWorld eq_refl eq_refl).
Defined.

Lemma blank_line_skipped_witness :
  let env := flakyEnv sampleLines (fun _ => true) in
  let line := lit "  " in
  blank line = true
  /\ fst (processLine env line initialWorld) = Val tt
  /\ sink (snd (processLine env line initialWorld)) = []
  /\ calls (snd (processLine env line initialWorld)) = []
  /\ processedLines (snd (processLine env line initialWorld)) = 1%Z
  /\ totalLines (snd (countLine line initialWorld)) = 1%Z.
Proof.
  intros env line. split; [reflexivity|].
  destruct (@blank_line_skipped demoLibs env line initialWorld eq_refl)
    as (Hr & Hsink & _ & Hcalls & _ & Hproc & _ & _ & Htotal & _).
  split; [exact Hr|]. split; [exact Hsink|]. split; [exact Hcalls|].
  split; [exact Hproc|exact Htotal].
Defined.

Lemma progress_percent_in_range_witness :
  let env := goodEnv sampleLines in
  let r := fst (deriveAddressesFromFile env inputFilePath outputFilePath
                  initialWorld) in
  let w' := snd (deriveAddressesFromFile env inputFilePath outputFilePath
                   initialWorld) in
  firstRead env inputFilePath = secondRead env inputFilePath
  /\ exists j,
       (r = Val tt -> j = 6%nat)
       /\ forall k, (1 <= k <= j)%nat ->
            (0 < totalLines w')%Z
            /\ (1 <= counterAfter k 0 <= totalLines w')%Z
            /\ exists z, JsNumber.percentOf (counterAfter k 0) (totalLines w')
                         = JsNumber.Int z
                         /\ (0 <= z <= 100)%Z.
Proof.
  intros env r w'. split; [reflexivity|].
  destruct (@progress_percent_in_range demoLibs env inputFilePath outputFilePath
              initialWorld eq_refl) as (j & _ & Hdone & _ & Hk).
  exists j. split; [exact Hdone|]. exact Hk.
Defined.

End DemoRuns.

(** ** Further facts about the derivation engine *)

Section EngineSteps.

Context {libs : CryptoLibs}.

(** Closes a [Chained] goal on a concrete call log from the package
    results in the context. *)
Ltac chain :=
  repeat (first
    [ apply chained_one
    | apply chained_cons;
      [ simpl; first [ assumption
                     | split; first [assumption | reflexivity]
                     | eexists; split; [eassumption | reflexivity] ] | ] ]).

(** X8: the steps of a derivation.  A derivation calls the packages in
    the fixed order validation, seed expansion, master node, path walk, key
    pair, address encoding, and stops at the first step that fails: every
    call but the last returned and the next call was made on what it
    returned, and the last call is the step that ended the derivation, with
    its result (the error of a rejected mnemonic, what the package threw, or
    the address).  It made the validation call only exactly when validation
    rejected the mnemonic, and then it throws [Error('Invalid mnemonic')];
    it returns an address only after all six calls; any other error was
    thrown by a package after validation passed. *)
Theorem derivation_steps_in_order (mnemonic : jsstring) :
  exists k,
    (1 <= k <= 6)%nat
    /\ map stepOf (engineCalls mnemonic) = seq 0 k
    /\ hd_error (engineCalls mnemonic) = Some (CallValidateMnemonic mnemonic)
    /\ Chained (engineCalls mnemonic)
    /\ endsWith (last (engineCalls mnemonic) (CallValidateMnemonic mnemonic))
                (engineResult mnemonic)
    /\ (validateMnemonic mnemonic = false <-> k = 1%nat)
    /\ (forall address, engineResult mnemonic = Val address -> k = 6%nat)
    /\ (forall err, engineResult mnemonic = Exn err ->
        (err = JsError (lit "Invalid mnemonic") /\ k = 1%nat)
        \/ (exists e, err = LibThrown e /\ (2 <= k)%nat)).
Proof.
  unfold engineCalls, engineResult, deriveRippleAddress, bind, extern, throw, ret.
  destruct (validateMnemonic mnemonic) eqn:Hv; simpl.
  2:{ exists 1%nat.
      split; [lia|]. split; [reflexivity|]. split; [reflexivity|].
      split; [chain|]. split; [split; [exact Hv|reflexivity]|].
      repeat split; try lia; try discriminate.
      intros err [= <-]. left. split; reflexivity. }
  destruct (mnemonicToSeed mnemonic) as [e|seed] eqn:Hseed; simpl.
  { exists 2%nat. rewrite ?Hseed.
    split; [lia|]. split; [reflexivity|]. split; [reflexivity|].
    split; [chain|]. split; [now exists e|].
    repeat split; try lia; try discriminate.
    intros err [= <-]. right. exists e. split; [reflexivity|lia]. }
  destruct (fromSeedBuffer seed) as [e|root] eqn:Hroot; simpl.
  { exists 3%nat. rewrite ?Hroot.
    split; [lia|]. split; [reflexivity|]. split; [reflexivity|].
    split; [chain|]. split; [now exists e|].
    repeat split; try lia; try discriminate.
    intros err [= <-]. right. exists e. split; [reflexivity|lia]. }
  destruct (derivePath root ripplePath) as [e|node] eqn:Hnode; simpl.
  { exists 4%nat. rewrite ?Hnode.
    split; [lia|]. split; [reflexivity|]. split; [reflexivity|].
    split; [chain|]. split; [now exists e|].
    repeat split; try lia; try discriminate.
    intros err [= <-]. right. exists e. split; [reflexivity|lia]. }
  destruct (getKeyPairs (keyPair node)) as [e|kp] eqn:Hkp; simpl.
  { exists 5%nat. rewrite ?Hkp.
    split; [lia|]. split; [reflexivity|]. split; [reflexivity|].
    split; [chain|]. split; [now exists e|].
    repeat split; try lia; try discriminate.
    intros err [= <-]. right. exists e. split; [reflexivity|lia]. }
  destruct (deriveAddress (publicKey kp)) as [e|a] eqn:Ha; simpl.
  { exists 6%nat. rewrite ?Ha.
    split; [lia|]. split; [reflexivity|]. split; [reflexivity|].
    split; [chain|]. split; [reflexivity|].
    repeat split; try lia; try discriminate.
    intros err [= <-]. right. exists e. split; [reflexivity|lia]. }
  exists 6%nat. rewrite ?Ha.
  split; [lia|]. split; [reflexivity|]. split; [reflexivity|].
  split; [chain|]. split; [reflexivity|].
  repeat split; try lia; try discriminate.
Qed.

End EngineSteps.

(** ** Further facts about the percentage *)

Section PercentEnds.

Local Open Scope Z_scope.

Import JsNumber.

(** All lines processed: the quotient is exactly one, the product exactly
    one hundred. *)
Lemma percentOf_all n : 1 <= n <= 2 ^ 53 -> percentOf n n = Int 100.
Proof.
  intros Hn. unfold percentOf.
  destruct (ofZ_normal n Hn) as (m & e & -> & Hd & He & _).
  assert (Hone : div (S754_finite false m e) (S754_finite false m e)
                 = S754_finite false 4503599627370496 (-52)).
  { unfold div, SFdiv, SFdiv_core_binary. cbn [Zdigits2 xorb]. rewrite Hd.
    assert (Hf : Z.min (fexp prec emax (53 + e - (53 + e))) (e - e) = -53).
    { unfold fexp, SpecFloat.emin, prec, emax. lia. }
    rewrite Hf. replace (e - e - -53) with 53 by lia.
    rewrite Z.shiftl_mul_pow2 by lia.
    rewrite (surjective_pairing (Z.div_eucl _ _)).
    change (fst (Z.div_eucl (Z.pos m * 2 ^ 53) (Z.pos m)))
      with (Z.pos m * 2 ^ 53 / Z.pos m).
    change (snd (Z.div_eucl (Z.pos m * 2 ^ 53) (Z.pos m)))
      with ((Z.pos m * 2 ^ 53) mod Z.pos m).
    rewrite (Z.mul_comm (Z.pos m)), Z.div_mul, Z.mod_mul by lia.
    assert (Hloc : new_location (Z.pos m) 0 = loc_Exact).
    { unfold new_location, new_location_even, new_location_odd.
      destruct (Z.even (Z.pos m)); reflexivity. }
    rewrite Hloc. reflexivity. }
  rewrite Hone. reflexivity.
Qed.


End PercentEnds.

(** ** How far the printed percentage is from the exact one *)

Section PercentAccuracy.

Local Open Scope Z_scope.

Import JsNumber.

Lemma Zdigits2_nonneg q : 0 <= Zdigits2 q.
Proof. destruct q; simpl; lia. Qed.

Lemma Zdigits2_lt_pow q : 0 <= q -> q < 2 ^ Zdigits2 q.
Proof.
  intros Hq. destruct q as [|p|p]; simpl; [lia| |lia].
  apply digits2_pos_bounds.
Qed.

(** The rounding of [q * 2^e], two-sided: the mantissa kept after the
    first shift is the truncated one or its successor, and the second shift
    loses nothing. *)
Lemma binary_round_aux_between q e loc Lo Hi :
  0 <= q ->
  let n := Z.max 0 (fexp prec emax (Zdigits2 q + e) - e) in
  Lo * 2 ^ n <= q ->
  q + 1 <= Hi * 2 ^ n ->
  exists m k,
    0 <= k /\ Lo <= m * 2 ^ k <= Hi
    /\ binary_round_aux prec emax false q e loc =
       match m with
       | Z0 => S754_zero false
       | Zpos p => if e + n + k <=? emax - prec
                   then S754_finite false p (e + n + k)
                   else S754_infinity false
       | Zneg _ => S754_nan
       end.
Proof.
  intros Hq n Hlo Hhi.
  unfold binary_round_aux, shr_fexp.
  destruct (shr_record_of_loc_flags q loc) as (r & s & -> & _).
  destruct (shr_spec q r s e (fexp prec emax (Zdigits2 q + e) - e) Hq)
    as (mrs & -> & Hm & _).
  fold n in Hm |- *.
  assert (Hn : 0 <= n) by (subst n; lia).
  assert (Hpow : 0 < 2 ^ n) by (apply Z.pow_pos_nonneg; lia).
  (* the truncated mantissa has at most 53 digits *)
  assert (Hm53 : shr_m mrs < 2 ^ 53).
  { rewrite Hm. apply Z.div_lt_upper_bound; [lia|].
    pose proof (Zdigits2_lt_pow q Hq) as Hd.
    pose proof (Zdigits2_nonneg q) as Hd0.
    destruct (Z_le_gt_dec (Zdigits2 q) 53) as [Hle|Hgt].
    - assert (2 ^ Zdigits2 q <= 2 ^ 53) by (apply Z.pow_le_mono_r; lia). nia.
    - assert (Hn' : Zdigits2 q - 53 <= n).
      { subst n. unfold fexp, SpecFloat.emin, prec, emax. lia. }
      assert (2 ^ Zdigits2 q <= 2 ^ n * 2 ^ 53).
      { rewrite <- Z.pow_add_r by lia. apply Z.pow_le_mono_r; lia. }
      lia. }
  assert (HE : SpecFloat.emin prec emax <= e + n).
  { subst n. unfold fexp. lia. }
  clearbody n.
  pose proof (round_nearest_even_bounds mrs) as Hr.
  set (mr := round_nearest_even (shr_m mrs) (loc_of_shr_record mrs)) in *.
  assert (Hm0 : 0 <= shr_m mrs) by (rewrite Hm; apply Z.div_pos; lia).
  assert (Hmr : q / 2 ^ n <= mr <= q / 2 ^ n + 1).
  { rewrite <- Hm. destruct (shr_r mrs || shr_s mrs); lia. }
  assert (HmrLo : Lo <= mr).
  { assert (Lo <= q / 2 ^ n) by (apply Z.div_le_lower_bound; lia). lia. }
  assert (HmrHi : mr <= Hi).
  { assert (q / 2 ^ n < Hi) by (apply Z.div_lt_upper_bound; lia). lia. }
  assert (Hmr0 : 0 <= mr) by lia.
  change (shr_record_of_loc mr loc_Exact)
    with {| shr_m := mr; shr_r := false; shr_s := false |}.
  destruct (shr_spec mr false false (e + n)
              (fexp prec emax (Zdigits2 mr + (e + n)) - (e + n)) Hmr0)
    as (mrs2 & -> & Hm2 & _).
  set (k := Z.max 0 (fexp prec emax (Zdigits2 mr + (e + n)) - (e + n))) in *.
  assert (Hk : 0 <= k) by (subst k; lia).
  (* the second shift is by zero bits, or by one bit of 2^53 *)
  assert (Hexact : mr / 2 ^ k * 2 ^ k = mr).
  { destruct (Z_lt_ge_dec mr (2 ^ 53)) as [Hlt|Hge].
    - assert (Hd : Zdigits2 mr <= 53) by (apply Zdigits2_le; lia).
      assert (k = 0).
      { subst k. unfold fexp, prec in *. lia. }
      subst k. rewrite H. rewrite Z.div_1_r. lia.
    - assert (Heq : mr = 2 ^ 53) by lia.
      assert (Hk1 : k = 1).
      { subst k. rewrite Heq. change (Zdigits2 (2 ^ 53)) with 54.
        unfold fexp, prec in *. lia. }
      rewrite Hk1, Heq. reflexivity. }
  exists (shr_m mrs2), k. rewrite Hm2, Hexact.
  split; [exact Hk|]. split; [lia|reflexivity].
Qed.

(** The quotient of two counter values, two-sided: in units of [2^-b] it
    is within 2 of the exact quotient. *)
Lemma div_close p t :
  1 <= p <= t -> t <= 2 ^ 53 ->
  exists mx ex b,
    div (ofZ p) (ofZ t) = S754_finite false mx ex
    /\ ex <= 0 /\ Zpos mx <= 2 ^ (- ex)
    /\ 53 <= b /\ 0 <= b + ex
    /\ p * 2 ^ b <= t * (Zpos mx * 2 ^ (b + ex)) + 2 * t
    /\ t * (Zpos mx * 2 ^ (b + ex)) <= p * 2 ^ b + 2 * t.
Proof.
  intros Hp Ht.
  pose proof (div_atMostOne p t Hp Ht) as Hone.
  destruct (ofZ_normal p) as (m1 & e1 & E1 & Hd1 & He1 & Hv1); [lia|].
  destruct (ofZ_normal t) as (m2 & e2 & E2 & Hd2 & He2 & Hv2); [lia|].
  rewrite E1, E2 in *.
  pose proof (digits2_pos_bounds m1) as Hb1. rewrite Hd1 in Hb1.
  pose proof (digits2_pos_bounds m2) as Hb2. rewrite Hd2 in Hb2.
  change (2 ^ (53 - 1)) with (2 ^ 52) in *.
  assert (He : e1 <= e2).
  { destruct (Z_le_gt_dec e1 e2) as [|Hgt]; [assumption|exfalso].
    assert (H2 : 2 ^ (e1 + 52) = 2 ^ (e1 - e2 - 1) * 2 * 2 ^ (e2 + 52)).
    { replace (e1 + 52) with ((e1 - e2 - 1) + 1 + (e2 + 52)) by lia.
      rewrite !Z.pow_add_r by lia. reflexivity. }
    assert (0 < 2 ^ (e1 - e2 - 1)) by (apply Z.pow_pos_nonneg; lia).
    assert (0 < 2 ^ (e2 + 52)) by (apply Z.pow_pos_nonneg; lia).
    assert (Z.pos m1 * 2 ^ (e1 + 52) <= Z.pos m2 * 2 ^ (e2 + 52)) by nia.
    rewrite H2 in *. nia. }
  set (b := 53 + e2 - e1).
  (* the two quotients are the same rational *)
  assert (Hrat : p * 2 ^ b * Zpos m2 = t * (Zpos m1 * 2 ^ 53)).
  { assert (Hpw : 2 ^ (e1 + 52) * 2 ^ b = 2 ^ (e2 + 52) * 2 ^ 53).
    { rewrite <- !Z.pow_add_r by lia. f_equal. lia. }
    assert (HA : 0 < 2 ^ (e1 + 52)) by (apply Z.pow_pos_nonneg; lia).
    assert (HP : 0 < 2 ^ 52) by (apply Z.pow_pos_nonneg; lia).
    revert Hpw Hv1 Hv2 HA HP.
    generalize (2 ^ (e1 + 52)) (2 ^ (e2 + 52)) (2 ^ b) (2 ^ 53) (2 ^ 52).
    intros A B C D P Hpw Hv1 Hv2 HA HP.
    apply (Z.mul_reg_r _ _ (P * A)); [lia|].
    transitivity ((p * P) * Zpos m2 * (A * C)); [ring|].
    rewrite <- Hv1, Hpw.
    transitivity ((t * P) * Zpos m1 * D * A); [rewrite <- Hv2; ring|ring]. }
  unfold div, SFdiv, SFdiv_core_binary in *. cbn [Zdigits2 xorb] in *.
  rewrite Hd1, Hd2 in *.
  assert (Hf : Z.min (fexp prec emax (53 + e1 - (53 + e2))) (e1 - e2) = e1 - e2 - 53).
  { unfold fexp, SpecFloat.emin, prec, emax. lia. }
  rewrite Hf in *. replace (e1 - e2 - (e1 - e2 - 53)) with 53 in * by lia.
  rewrite Z.shiftl_mul_pow2 in * by lia.
  pose proof (Z_div_mod (Zpos m1 * 2 ^ 53) (Zpos m2) eq_refl) as Hdm.
  destruct (Z.div_eucl (Zpos m1 * 2 ^ 53) (Zpos m2)) as [q r].
  destruct Hdm as [Hqr Hr].
  assert (Hq0 : 2 ^ 52 <= q).
  { change (2 ^ 53) with (2 * 2 ^ 52) in Hqr. nia. }
  set (e' := e1 - e2 - 53) in *.
  set (n := Z.max 0 (fexp prec emax (Zdigits2 q + e') - e')) in *.
  assert (Hqlt : q < 2 ^ 54).
  { change (2 ^ 54) with (2 * 2 ^ 53). change (2 ^ 53) with (2 * 2 ^ 52) in *. nia. }
  assert (Hdq : Zdigits2 q <= 54) by (apply Zdigits2_le; lia).
  assert (Hn : 0 <= n <= 1).
  { subst n e'. unfold fexp, SpecFloat.emin, prec, emax. lia. }
  assert (Hpn : 1 <= 2 ^ n <= 2).
  { destruct (Z.eq_dec n 0) as [->| ]; [simpl; lia|].
    replace n with 1 by lia. simpl. lia. }
  pose proof (Z.mul_div_le q (2 ^ n) ltac:(lia)) as Hlo.
  pose proof (Z.mul_succ_div_gt q (2 ^ n) ltac:(lia)) as Hhi.
  destruct (binary_round_aux_between q e' (new_location (Zpos m2) r)
              (q / 2 ^ n) (q / 2 ^ n + 1)) as (m & k & Hk & Hmk & Hres).
  - lia.
  - fold n. lia.
  - fold n. lia.
  - fold n in Hres. rewrite Hres in Hone |- *.
    assert (H1 : 1 <= q / 2 ^ n).
    { apply Z.div_le_lower_bound; [lia|]. change (2 ^ 52) with 4503599627370496 in Hq0. lia. }
    assert (Hpk : 0 < 2 ^ k) by (apply Z.pow_pos_nonneg; lia).
    destruct m as [|pm|pm]; [lia| |lia].
    destruct (Z.leb_spec (e' + n + k) (emax - prec)) as [_|Hbad].
    2:{ destruct Hone as [Hz|(? & ? & Hz & _)]; discriminate. }
    destruct Hone as [Hz|(mx & ex & Hz & Hex & Hmx)]; [discriminate|].
    injection Hz as <- <-.
    exists pm, (e' + n + k), b. split; [reflexivity|]. split; [exact Hex|].
    split; [exact Hmx|]. split; [subst b; lia|].
    replace (b + (e' + n + k)) with (k + n) by (subst b e'; lia).
    split; [lia|]. rewrite Z.pow_add_r by lia.
    set (M := Z.pos pm * 2 ^ k) in *.
    replace (Z.pos pm * (2 ^ k * 2 ^ n)) with (M * 2 ^ n) by (subst M; ring).
    assert (HX : q - 1 <= M * 2 ^ n <= q + 2).
    { clear - Hmk Hlo Hhi Hpn.
      revert Hmk Hlo Hhi Hpn. generalize (2 ^ n) (q / 2 ^ n). intros P Qd Hmk Hlo Hhi HP.
      assert (Qd * P <= M * P) by (apply Z.mul_le_mono_nonneg_r; lia).
      assert (M * P <= (Qd + 1) * P) by (apply Z.mul_le_mono_nonneg_r; lia).
      lia. }
    clear - HX Hrat Hqr Hr Hp.
    revert HX Hrat. generalize (M * 2 ^ n) (2 ^ b). intros X B HX Hrat.
    assert (Hm2 : 0 < Z.pos m2) by lia.
    assert (Ht0 : 0 < t) by lia.
    assert (H1 : t * (Z.pos m2 * (q - 1)) <= t * (Z.pos m2 * X)).
    { apply Z.mul_le_mono_nonneg_l; [lia|]. apply Z.mul_le_mono_nonneg_l; lia. }
    assert (H2 : t * (Z.pos m2 * X) <= t * (Z.pos m2 * (q + 2))).
    { apply Z.mul_le_mono_nonneg_l; [lia|]. apply Z.mul_le_mono_nonneg_l; lia. }
    assert (H3 : 0 <= t * r < t * Z.pos m2).
    { split; [apply Z.mul_nonneg_nonneg; lia|apply Z.mul_lt_mono_pos_l; lia]. }
    assert (H4 : p * B * Z.pos m2 = t * (Z.pos m2 * q) + t * r).
    { rewrite Hrat, Hqr. ring. }
    split.
    + apply (Z.mul_le_mono_pos_r _ _ (Zpos m2)); [lia|]. rewrite H4.
      replace ((t * X + 2 * t) * Z.pos m2) with (t * (Z.pos m2 * X) + 2 * (t * Z.pos m2)) by ring.
      replace (t * (Z.pos m2 * (q - 1))) with (t * (Z.pos m2 * q) - t * Z.pos m2) in H1 by ring.
      lia.
    + apply (Z.mul_le_mono_pos_r _ _ (Zpos m2)); [lia|].
      replace ((p * B + 2 * t) * Z.pos m2) with (p * B * Z.pos m2 + 2 * (t * Zpos m2)) by ring.
      rewrite H4.
      replace (t * X * Z.pos m2) with (t * (Z.pos m2 * X)) by ring.
      replace (t * (Z.pos m2 * (q + 2))) with (t * (Z.pos m2 * q) + 2 * (t * Z.pos m2)) in H2 by ring.
      lia.
Qed.

Lemma floor_mul_100_between mx ex Lo Hi :
  ex <= 0 -> Zpos mx <= 2 ^ (- ex) ->
  0 <= Lo -> Hi <= 100 ->
  Lo * 2 ^ (- ex) <= 100 * Zpos mx ->
  100 * Zpos mx * 2 ^ 46 + 2 * 2 ^ (- ex) <= (Hi + 1) * 2 ^ 46 * 2 ^ (- ex) ->
  exists z, floor (mul (S754_finite false mx ex) (ofZ 100)) = Int z /\ Lo <= z <= Hi.
Proof.
  change (ofZ 100) with (S754_finite false 7036874417766400 (-46)).
  intros He Hm HLo HHi Hlow Hhigh.
  unfold mul, SFmul. cbn [xorb].
  set (q := Zpos (mx * 7036874417766400)).
  set (e0 := ex + -46).
  set (n := Z.max 0 (fexp prec emax (Zdigits2 q + e0) - e0)).
  assert (Hpe : 0 < 2 ^ (- ex)) by (apply Z.pow_pos_nonneg; lia).
  assert (Hq : q = 100 * Zpos mx * 2 ^ 46).
  { subst q. rewrite Pos2Z.inj_mul. change (Z.pos 7036874417766400) with (100 * 2 ^ 46). ring. }
  assert (Hqlt : q < 2 ^ (53 - ex)).
  { replace (53 - ex) with (- ex + 53) by lia. rewrite Z.pow_add_r by lia.
    rewrite Hq. change (2 ^ 53) with (128 * 2 ^ 46). change (2 ^ 46) with 70368744177664.
    nia. }
  assert (Hdq : Zdigits2 q <= 53 - ex) by (apply Zdigits2_le; lia).
  assert (HE : e0 + n <= -46).
  { subst n e0. unfold fexp, SpecFloat.emin, prec, emax. lia. }
  assert (Hn : 0 <= n) by (subst n; lia).
  set (E := e0 + n) in *.
  assert (Hsplit : 2 ^ (- E) * 2 ^ n = 2 ^ 46 * 2 ^ (- ex)).
  { rewrite <- !Z.pow_add_r by lia. f_equal. subst E e0. lia. }
  assert (HnE : 2 ^ n <= 2 ^ (- ex)).
  { apply Z.pow_le_mono_r; [lia|]. subst E e0. lia. }
  assert (HpE : 0 < 2 ^ (- E)) by (apply Z.pow_pos_nonneg; lia).
  assert (Hpn : 0 < 2 ^ n) by (apply Z.pow_pos_nonneg; lia).
  destruct (binary_round_aux_between q e0 loc_Exact
              (Lo * 2 ^ (- E)) ((Hi + 1) * 2 ^ (- E) - 1)) as (m & k & Hk & Hmk & ->).
  - subst q. lia.
  - fold n. rewrite <- Z.mul_assoc, Hsplit, Hq.
    replace (Lo * (2 ^ 46 * 2 ^ (- ex))) with ((Lo * 2 ^ (- ex)) * 2 ^ 46) by ring.
    replace (100 * Z.pos mx * 2 ^ 46) with ((100 * Z.pos mx) * 2 ^ 46) by ring.
    apply Z.mul_le_mono_nonneg_r; lia.
  - fold n. rewrite Z.mul_sub_distr_r, <- Z.mul_assoc, Hsplit, Hq.
    replace ((Hi + 1) * (2 ^ 46 * 2 ^ (- ex))) with ((Hi + 1) * 2 ^ 46 * 2 ^ (- ex)) by ring.
    lia.
  - fold n. fold E. clearbody E n q.
    assert (Hpk : 0 < 2 ^ k) by (apply Z.pow_pos_nonneg; lia).
    destruct m as [|pm|pm]; [|..].
    + exists 0. split; [reflexivity|]. nia.
    + destruct (Z_le_gt_dec 0 (E + k)) as [Hpos|Hneg].
      * assert (H2 : 2 ^ k = 2 ^ (E + k) * 2 ^ (- E)).
        { rewrite <- Z.pow_add_r by lia. f_equal. lia. }
        assert (Hp : 0 < 2 ^ (E + k)) by (apply Z.pow_pos_nonneg; lia).
        rewrite H2 in Hmk.
        assert (Hval : Lo <= Zpos pm * 2 ^ (E + k) <= Hi).
        { replace (Z.pos pm * (2 ^ (E + k) * 2 ^ (- E)))
            with (Zpos pm * 2 ^ (E + k) * 2 ^ (- E)) in Hmk by ring.
          revert Hmk HpE. generalize (Zpos pm * 2 ^ (E + k)) (2 ^ (- E)).
          intros V P Hmk HP. split.
          - apply (Z.mul_le_mono_pos_r _ _ P); lia.
          - enough (V < Hi + 1) by lia.
            apply (Z.mul_lt_mono_pos_r P); lia. }
        assert (Hsmall : E + k <= 6).
        { assert (H7 : 2 ^ (E + k) < 2 ^ 7) by (change (2 ^ 7) with 128; nia).
          apply Z.pow_lt_mono_r_iff in H7; lia. }
        destruct (Z.leb_spec (E + k) (emax - prec)) as [_|Hbad];
          [|unfold emax, prec in Hbad; lia].
        exists (Zpos pm * 2 ^ (E + k)). cbn [floor cond_Zopp].
        rewrite Z.shiftl_mul_pow2 by lia. split; [reflexivity|exact Hval].
      * destruct (Z.leb_spec (E + k) (emax - prec)) as [_|Hbad];
          [|unfold emax, prec in Hbad; lia].
        exists (Zpos pm / 2 ^ (- (E + k))). cbn [floor cond_Zopp].
        rewrite Z.shiftl_div_pow2 by lia. split; [reflexivity|].
        assert (Hp : 0 < 2 ^ (- (E + k))) by (apply Z.pow_pos_nonneg; lia).
        assert (H2 : 2 ^ (- E) = 2 ^ (- (E + k)) * 2 ^ k).
        { rewrite <- Z.pow_add_r by lia. f_equal. lia. }
        rewrite H2 in Hmk. revert Hmk Hp Hpk.
        generalize (2 ^ (- (E + k))) (2 ^ k). intros P K Hmk Hp HK.
        split.
        -- apply Z.div_le_lower_bound; [lia|].
           apply (Z.mul_le_mono_pos_r _ _ K); [lia|].
           replace (P * Lo * K) with (Lo * (P * K)) by ring. lia.
        -- enough (Z.pos pm / P < Hi + 1) by lia.
           apply Z.div_lt_upper_bound; [lia|].
           apply (Z.mul_lt_mono_pos_r K); [lia|].
           replace (P * (Hi + 1) * K) with ((Hi + 1) * (P * K)) by ring. lia.
    + lia.
Qed.

Lemma exactPercent_div p t : 0 < t -> exactPercent p t = p * 100 / t.
Proof.
  intros Ht. destruct t as [|tp|tp]; try lia.
  unfold exactPercent, Qfloor, Qmult, Qdiv, Qinv, inject_Z. simpl.
  f_equal; [ring|]. now rewrite Pos.mul_1_r.
Qed.

(** X11. For 1 <= p <= t <= 2^44 the percentage computed by
    [Math.floor((processedLines / totalLines) * 100)] is an integer that is
    the exact percentage or one below it: the two roundings of the
    division and the product never push it up, and never down by more
    than one. *)
Theorem progress_percent_within_one p t :
  1 <= p <= t -> t <= 2 ^ 44 ->
  exists z, percentOf p t = Int z
            /\ exactPercent p t - 1 <= z <= exactPercent p t.
Proof.
  intros Hp Ht. rewrite exactPercent_div by lia.
  assert (Ht53 : t <= 2 ^ 53) by (change (2 ^ 44) with 17592186044416 in Ht; change (2 ^ 53) with 9007199254740992; lia).
  destruct (div_close p t Hp Ht53) as (mx & ex & b & Hx & Hex & Hmx & Hb & Hbe & Hlow & Hhigh).
  unfold percentOf. rewrite Hx.
  set (E := p * 100 / t).
  assert (HE1 : t * E <= p * 100) by (apply Z.mul_div_le; lia).
  assert (HE2 : p * 100 < t * Z.succ E) by (apply Z.mul_succ_div_gt; lia).
  assert (HE0 : 0 <= E <= 100).
  { split; [apply Z.div_pos; lia|]. apply Z.div_le_upper_bound; lia. }
  clearbody E.
  assert (Hpa : 0 < 2 ^ (- ex)) by (apply Z.pow_pos_nonneg; lia).
  assert (Hpc : 0 < 2 ^ (b + ex)) by (apply Z.pow_pos_nonneg; lia).
  assert (Hpb : 2 ^ b = 2 ^ (- ex) * 2 ^ (b + ex)).
  { rewrite <- Z.pow_add_r by lia. f_equal. lia. }
  assert (Hb53 : 2 ^ 53 <= 2 ^ b) by (apply Z.pow_le_mono_r; lia).
  change (2 ^ 53) with 9007199254740992 in Hb53.
  change (2 ^ 44) with 17592186044416 in Ht.
  assert (Ht0 : 0 < t) by lia.
  assert (HL : Z.max 0 (E - 1) * 2 ^ (- ex) <= 100 * Z.pos mx).
  { destruct (Z.max_spec 0 (E - 1)) as [[_ ->]|[_ ->]]; [|lia].
    revert Hlow Hpb Hb53 Hpa Hpc.
    generalize (2 ^ b) (2 ^ (- ex)) (2 ^ (b + ex)).
    intros B A C Hlow Hpb Hb53 Hpa Hpc.
    assert (HCt : 0 < C * t) by (apply Z.mul_pos_pos; lia).
    apply (Z.mul_le_mono_pos_r _ _ (C * t)); [lia|].
    replace ((E - 1) * A * (C * t)) with ((t * E) * (A * C) - t * (A * C)) by ring.
    replace (100 * Z.pos mx * (C * t)) with (100 * (t * (Z.pos mx * C))) by ring.
    rewrite <- Hpb.
    assert (t * E * B <= p * 100 * B) by (apply Z.mul_le_mono_nonneg_r; lia).
    assert (200 * t <= t * B).
    { rewrite (Z.mul_comm t B). apply Z.mul_le_mono_nonneg_r; lia. }
    lia. }
  assert (HH : 100 * Z.pos mx * 2 ^ 46 + 2 * 2 ^ (- ex)
               <= (E + 1) * 2 ^ 46 * 2 ^ (- ex)).
  { revert Hhigh Hpb Hb53 Hpa Hpc.
    generalize (2 ^ b) (2 ^ (- ex)) (2 ^ (b + ex)).
    intros B A C Hhigh Hpb Hb53 Hpa Hpc.
    assert (HCt : 0 < C * t) by (apply Z.mul_pos_pos; lia).
    apply (Z.mul_le_mono_pos_r _ _ (C * t)); [lia|].
    replace ((100 * Z.pos mx * 2 ^ 46 + 2 * A) * (C * t))
      with (100 * (t * (Z.pos mx * C)) * 2 ^ 46 + 2 * (t * (A * C))) by ring.
    replace ((E + 1) * 2 ^ 46 * A * (C * t)) with ((t * Z.succ E) * (A * C) * 2 ^ 46) by ring.
    rewrite <- Hpb.
    assert (H1 : (p * 100 + 1) * B <= t * Z.succ E * B) by (apply Z.mul_le_mono_nonneg_r; lia).
    change (2 ^ 46) with 70368744177664.
    assert (H2 : t * B <= 17592186044416 * B) by (apply Z.mul_le_mono_nonneg_r; lia).
    lia. }
  destruct (floor_mul_100_between mx ex (Z.max 0 (E - 1)) E Hex Hmx
              (Z.le_max_l 0 (E - 1)) (proj2 HE0) HL HH) as (z & Hz & Hzr).
  exists z. split; [exact Hz|]. lia.
Qed.

End PercentAccuracy.

(** ** Further facts about trimming *)

Section TrimEnds.

Lemma trimStart_head s c r : trimStart s = c :: r -> is_white_space c = false.
Proof.
  induction s as [|a s IH]; simpl; [discriminate|].
  destruct (is_white_space a) eqn:Ha; [exact IH|]. now intros [= <- _].
Qed.

Lemma trimStart_suffix s : exists dropped, s = dropped ++ trimStart s.
Proof.
  induction s as [|a s [dropped IH]]; simpl; [now exists []|].
  destruct (is_white_space a).
  - exists (a :: dropped). simpl. now f_equal.
  - now exists [].
Qed.

Lemma last_cons_default {A} (l : list A) (a d : A) : last (a :: l) d = last l a.
Proof.
  revert a d. induction l as [|b l IH]; intros a d; [reflexivity|].
  change (last (a :: b :: l) d) with (last (b :: l) d). now rewrite !IH.
Qed.

(** The trimmed text of a non-blank line starts and ends with code units
    that are not white space. *)
Lemma trim_ends line :
  blank line = false ->
  exists first rest,
    trim line = first :: rest
    /\ is_white_space first = false
    /\ is_white_space (last rest first) = false.
Proof.
  intros Hb. unfold trim, trimEnd.
  destruct (trimStart line) as [|c r] eqn:Ht.
  { apply trimStart_nil_iff in Ht. congruence. }
  pose proof (trimStart_head _ _ _ Ht) as Hc.
  destruct (trimStart_suffix (rev (c :: r))) as [dropped Hsuf].
  destruct (trimStart (rev (c :: r))) as [|d u] eqn:Hu.
  { apply trimStart_nil_iff in Hu. rewrite blank_rev in Hu.
    unfold blank in Hu. simpl in Hu. now rewrite Hc in Hu. }
  pose proof (trimStart_head _ _ _ Hu) as Hd.
  apply (f_equal (@rev N)) in Hsuf. rewrite rev_involutive, rev_app_distr in Hsuf.
  simpl rev in Hsuf |- *.
  destruct (rev u ++ [d]) as [|first rest] eqn:E.
  { now apply app_eq_nil in E as [_ [=]]. }
  simpl in Hsuf. injection Hsuf as <- _.
  exists c, rest. split; [reflexivity|]. split; [exact Hc|].
  rewrite <- (last_cons_default rest c c), <- E, last_last. exact Hd.
Qed.

End TrimEnds.

(** ** Further facts about the batch runner *)

Section ScriptFacts.

Context {libs : CryptoLibs}.
Variable env : Env.

(** *** The logs of an earlier history are carried along unchanged *)

Ltac rebase_done :=
  unfold rebase, addCalls, pushSink, failSink, pushStderr, pushStdout,
    setProcessedLines, setTotalLines, endSink; simpl;
  repeat rewrite <- app_assoc; reflexivity.

Lemma handleLine_rebase base line w :
  handleLine env line (rebase base w) =
  (fst (handleLine env line w), rebase base (snd (handleLine env line w))).
Proof.
  unfold handleLine, tryCatch, bind.
  destruct (truthy (trim line)); [|reflexivity].
  rewrite !deriveRippleAddress_frame.
  destruct (engineResult (trim line)) as [a|e]; unfold writeChunk, modify; simpl.
  - destruct (sinkOk env (writes w)); simpl; [f_equal; rebase_done|].
    destruct (sinkOk env (S (writes w))); simpl; f_equal; rebase_done.
  - destruct (sinkOk env (writes w)); simpl; f_equal; rebase_done.
Qed.

Lemma tick_rebase base w : tick (rebase base w) = rebase base (tick w).
Proof. unfold tick. rebase_done. Qed.

Lemma processLine_rebase base line w :
  processLine env line (rebase base w) =
  (fst (processLine env line w), rebase base (snd (processLine env line w))).
Proof.
  rewrite !processLine_split, handleLine_rebase.
  destruct (handleLine env line w) as [[[]|e] w1]; simpl; [|reflexivity].
  now rewrite tick_rebase.
Qed.

Lemma forEach_processLine_rebase base lines : forall w,
  forEach lines (processLine env) (rebase base w) =
  (fst (forEach lines (processLine env) w),
   rebase base (snd (forEach lines (processLine env) w))).
Proof.
  induction lines as [|l rest IH]; intros w; simpl; [reflexivity|].
  unfold bind. rewrite processLine_rebase.
  destruct (processLine env l w) as [[[]|e] w1]; simpl; [apply IH|reflexivity].
Qed.

Lemma countedWorld_rebase inputPath w :
  countedWorld env inputPath w = rebase w (countedWorld env inputPath initialWorld).
Proof.
  unfold countedWorld, rebase, setTotalLines, setProcessedLines, openSink; simpl.
  now rewrite !app_nil_r.
Qed.

(** A run started in any world is the run started in the fresh world, with
    the logs of the start world in front. *)
Lemma deriveAddressesFromFile_rebase inputPath outputPath w :
  deriveAddressesFromFile env inputPath outputPath w =
  (fst (deriveAddressesFromFile env inputPath outputPath initialWorld),
   rebase w (snd (deriveAddressesFromFile env inputPath outputPath initialWorld))).
Proof.
  rewrite !deriveAddressesFromFile_unfold.
  rewrite (countedWorld_rebase inputPath w), forEach_processLine_rebase.
  destruct (forEach _ _ (countedWorld env inputPath initialWorld)) as [[[]|e] w1];
    simpl; [f_equal; rebase_done|reflexivity].
Qed.

(** X1: the output file is overwritten.  Whatever the world before the
    script starts (whatever the sink held, whatever the counters were), the
    run ends as the run from the fresh world does: same result, same chunks
    in the sink, same counters.  So running the script a second time leaves
    in the sink exactly what the first run left, and prints again what the
    first run printed. *)
Theorem main_overwrites_output (w : World) :
  let once := main env w in
  let twice := main env (snd once) in
  fst once = fst (main env initialWorld)
  /\ sink (snd once) = sink (snd (main env initialWorld))
  /\ writes (snd once) = writes (snd (main env initialWorld))
  /\ ended (snd once) = ended (snd (main env initialWorld))
  /\ totalLines (snd once) = totalLines (snd (main env initialWorld))
  /\ processedLines (snd once) = processedLines (snd (main env initialWorld))
  /\ fst twice = fst once
  /\ sink (snd twice) = sink (snd once)
  /\ totalLines (snd twice) = totalLines (snd once)
  /\ processedLines (snd twice) = processedLines (snd once)
  /\ stdout (snd twice) = stdout (snd once) ++ stdout (snd (main env initialWorld))
  /\ stdout (snd once) = stdout w ++ stdout (snd (main env initialWorld)).
Proof.
  intros once twice. subst twice once. unfold main.
  rewrite (deriveAddressesFromFile_rebase inputFilePath outputFilePath
             (snd (deriveAddressesFromFile env inputFilePath outputFilePath w))).
  rewrite (deriveAddressesFromFile_rebase inputFilePath outputFilePath w).
  simpl. repeat split.
Qed.

(** *** The end of the run *)

Lemma handleLine_ended line w : ended (snd (handleLine env line w)) = ended w.
Proof.
  unfold handleLine, tryCatch, bind.
  destruct (truthy (trim line)); [|reflexivity].
  rewrite deriveRippleAddress_frame.
  destruct (engineResult (trim line)) as [a|e]; unfold writeChunk, modify; simpl.
  - destruct (sinkOk env (writes w)); simpl; [reflexivity|].
    destruct (sinkOk env (S (writes w))); reflexivity.
  - destruct (sinkOk env (writes w)); reflexivity.
Qed.

Lemma forEach_processLine_ended lines : forall w,
  ended (snd (forEach lines (processLine env) w)) = ended w.
Proof.
  induction lines as [|l rest IH]; intros w; simpl; [reflexivity|].
  unfold bind. rewrite processLine_split.
  pose proof (handleLine_ended l w) as Hl.
  destruct (handleLine env l w) as [[[]|e] w1]; simpl in *; [|exact Hl].
  rewrite IH. exact Hl.
Qed.

(** A rejected loop stopped at a non-blank line, after the progress lines
    of the lines before it. *)
Lemma forEach_processLine_stops lines : forall w err,
  fst (forEach lines (processLine env) w) = Exn err ->
  exists j line,
    nth_error lines j = Some line /\ blank line = false
    /\ stdout (snd (forEach lines (processLine env) w)) =
         stdout w ++ progressLines (totalLines w) (processedLines w) j
    /\ processedLines (snd (forEach lines (processLine env) w)) =
         counterAfter j (processedLines w).
Proof.
  induction lines as [|l rest IH]; intros w err; simpl; [discriminate|].
  unfold bind. rewrite processLine_split.
  pose proof (handleLine_frame env l w) as (Hs & Ht & Hp).
  pose proof (handleLine_blank env l w) as Hblank.
  destruct (handleLine env l w) as [[[]|e] w1]; simpl in Hs, Ht, Hp |- *.
  - intros Herr. destruct (IH (tick w1) err Herr) as (j & line & Hn & Hb & Hout & Hproc).
    exists (S j), line. split; [exact Hn|]. split; [exact Hb|]. split.
    + rewrite Hout. simpl. rewrite progressLines_S, Hs, Ht, Hp.
      now rewrite <- app_assoc.
    + rewrite Hproc. simpl. rewrite Hp. apply counterAfter_incr.
  - intros _. exists 0%nat, l. split; [reflexivity|]. split.
    + destruct (blank l); [|reflexivity]. now specialize (Hblank eq_refl).
    + unfold progressLines. simpl. rewrite app_nil_r. auto.
Qed.

(** X2: the end of the run.  The stream is ended exactly when the run
    returns normally, and then the last thing printed is the completion
    notice naming the output path.  When the run is rejected, the loop
    stopped at a non-blank line: the console holds the progress lines of
    the lines before it and no completion notice, and the processed counter
    counts those lines only. *)
Theorem run_ends_stream_iff_completed
    (inputPath outputPath : jsstring) (w : World) :
  let r := fst (deriveAddressesFromFile env inputPath outputPath w) in
  let w' := snd (deriveAddressesFromFile env inputPath outputPath w) in
  (r = Val tt <-> ended w' = true)
  /\ (r = Val tt ->
      exists out, stdout w' = stdout w ++ out ++ [completionNotice outputPath])
  /\ (forall err, r = Exn err ->
      exists j line,
        nth_error (secondRead env inputPath) j = Some line
        /\ blank line = false
        /\ stdout w' = stdout w ++ progressLines (totalLines w') 0 j
        /\ processedLines w' = counterAfter j 0).
Proof.
  intros r w'. subst r w'. rewrite deriveAddressesFromFile_unfold.
  pose proof (forEach_processLine_ended (secondRead env inputPath)
                (countedWorld env inputPath w)) as Hend.
  pose proof (forEach_processLine_progress env (secondRead env inputPath)
                (countedWorld env inputPath w)) as (Ht & j & _ & Hout & _ & _).
  pose proof (forEach_processLine_stops (secondRead env inputPath)
                (countedWorld env inputPath w)) as Hstop.
  destruct (forEach _ _ _) as [[[]|e] w2]; cbn [fst snd] in *.
  - split; [split; reflexivity|]. split; [|discriminate].
    intros _. eexists. cbn [stdout pushStdout endSink]. rewrite Hout.
    cbn [stdout countedWorld setTotalLines setProcessedLines openSink].
    rewrite <- app_assoc. reflexivity.
  - split.
    { rewrite Hend. cbn. split; discriminate. }
    split; [discriminate|].
    intros err [= <-]. destruct (Hstop e eq_refl) as (k & line & Hn & Hb & Hs & Hp).
    exists k, line. rewrite Ht. repeat split; assumption.
Qed.

(** *** Write attempts *)





(** *** Package calls *)

Lemma handleLine_calls line w :
  calls (snd (handleLine env line w)) =
  calls w ++ (if blank line then [] else engineCalls (trim line)).
Proof.
  unfold handleLine, tryCatch, bind. rewrite truthy_trim.
  destruct (blank line); simpl; [now rewrite app_nil_r|].
  rewrite deriveRippleAddress_frame.
  destruct (engineResult (trim line)) as [a|e]; unfold writeChunk, modify; simpl.
  - destruct (sinkOk env (writes w)); simpl; [reflexivity|].
    destruct (sinkOk env (S (writes w))); reflexivity.
  - destruct (sinkOk env (writes w)); reflexivity.
Qed.

Lemma forEach_processLine_calls lines : forall w,
  exists k,
    (k <= List.length lines)%nat
    /\ calls (snd (forEach lines (processLine env) w)) =
         calls w ++ expectedCalls (firstn k lines)
    /\ (fst (forEach lines (processLine env) w) = Val tt -> k = List.length lines).
Proof.
  induction lines as [|l rest IH]; intros w; simpl.
  { exists 0%nat. simpl. rewrite app_nil_r. auto. }
  unfold bind. rewrite processLine_split.
  pose proof (handleLine_calls l w) as Hc.
  destruct (handleLine env l w) as [[[]|e] w1]; cbn [fst snd] in *.
  - destruct (IH (tick w1)) as (k & Hk & Hcalls & Hdone).
    exists (S k). split; [lia|]. split.
    + rewrite Hcalls. cbn [calls tick pushStdout setProcessedLines].
      rewrite Hc. unfold expectedCalls. simpl. now rewrite <- app_assoc.
    + intros H. f_equal. auto.
  - exists 1%nat. split; [lia|]. split; [|discriminate].
    rewrite Hc. unfold expectedCalls. simpl. now rewrite app_nil_r.
Qed.

(** X4: one derivation per line.  The package calls of a run are, in
    input order, those of one derivation on the trimmed text of each
    non-blank line among the first [k] lines of the processing pass, and
    nothing else: none for a blank line, none in the counting pass, none
    twice.  All lines are covered when the run returns normally. *)
Theorem one_derivation_per_line (inputPath outputPath : jsstring) (w : World) :
  let r := fst (deriveAddressesFromFile env inputPath outputPath w) in
  let w' := snd (deriveAddressesFromFile env inputPath outputPath w) in
  exists k,
    (k <= List.length (secondRead env inputPath))%nat
    /\ calls w' = calls w ++ expectedCalls (firstn k (secondRead env inputPath))
    /\ (r = Val tt -> k = List.length (secondRead env inputPath)).
Proof.
  intros r w'. subst r w'. rewrite deriveAddressesFromFile_unfold.
  destruct (forEach_processLine_calls (secondRead env inputPath)
              (countedWorld env inputPath w)) as (k & Hk & Hc & Hdone).
  exists k. split; [exact Hk|].
  destruct (forEach _ _ _) as [[[]|e] w2]; cbn [fst snd] in *.
  - split; [exact Hc|exact Hdone].
  - split; [exact Hc|discriminate].
Qed.

(** *** What is logged *)

Lemma handleLine_stderr line w :
  exists new,
    stderr (snd (handleLine env line w)) = stderr w ++ new
    /\ (new = [] \/ (blank line = false /\ exists e, new = [(errorMessage line, e)])).
Proof.
  unfold handleLine, tryCatch, bind. rewrite truthy_trim.
  destruct (blank line); simpl.
  { exists []. rewrite app_nil_r. auto. }
  rewrite deriveRippleAddress_frame.
  destruct (engineResult (trim line)) as [a|e]; unfold writeChunk, modify; simpl.
  - destruct (sinkOk env (writes w)); simpl.
    + exists []. rewrite app_nil_r. auto.
    + eexists. split; [destruct (sinkOk env (S (writes w))); reflexivity|].
      right. eauto.
  - eexists. split; [destruct (sinkOk env (writes w)); reflexivity|].
    right. eauto.
Qed.

Lemma forEach_processLine_stderr lines : forall w,
  exists new,
    stderr (snd (forEach lines (processLine env) w)) = stderr w ++ new
    /\ Forall (fun entry => exists line, In line lines /\ blank line = false
                                       /\ fst entry = errorMessage line) new.
Proof.
  induction lines as [|l rest IH]; intros w; simpl.
  { exists []. rewrite app_nil_r. auto. }
  unfold bind. rewrite processLine_split.
  destruct (handleLine_stderr l w) as (new & Hs & Hnew).
  assert (Hfirst : Forall (fun entry => exists line, In line (l :: rest)
                             /\ blank line = false /\ fst entry = errorMessage line) new).
  { destruct Hnew as [->|(Hb & e & ->)]; constructor; [|constructor].
    exists l. simpl. auto. }
  destruct (handleLine env l w) as [[[]|e] w1]; cbn [fst snd] in *.
  - destruct (IH (tick w1)) as (more & Hs' & Hmore).
    exists (new ++ more). split.
    + rewrite Hs'. cbn [stderr tick pushStdout setProcessedLines].
      rewrite Hs. now rewrite <- app_assoc.
    + apply Forall_app. split; [exact Hfirst|].
      eapply Forall_impl; [|exact Hmore].
      intros entry (line & Hin & Hb & Hm). exists line. simpl. auto.
  - exists new. split; [exact Hs|exact Hfirst].
Qed.

Lemma afterLines_stderr_eq lines : forall w,
  stderr (afterLines lines w) = stderr w ++ expectedErrors lines.
Proof.
  induction lines as [|l rest IH]; intros w; simpl; [now rewrite app_nil_r|].
  unfold afterLines in *. simpl. rewrite IH.
  unfold afterLine, tick, afterHandle, errorMessage; simpl. rewrite truthy_trim.
  destruct (blank l); simpl; [reflexivity|].
  destruct (engineResult (trim l)); simpl; [reflexivity|].
  now rewrite <- app_assoc.
Qed.

Lemma errorMessage_not_top_level line :
  errorMessage line <> lit "Error processing mnemonics:".
Proof.
  unfold errorMessage. intros H. apply (f_equal (firstn 7)) in H.
  vm_compute in H. discriminate.
Qed.

(** X5: what reaches [console.error].  Whatever the sink does, every entry
    a run logs is a per-line entry: its message is
    [Error deriving address for mnemonic: ] followed by the trimmed text of
    a non-blank input line; the message [Error processing mnemonics:] of the
    outer [catch] is never logged.  When every write succeeds, the entries
    are exactly, in input order, one per non-blank line whose derivation
    throws, each with the error that was thrown. *)
Theorem logged_errors_are_per_line (inputPath outputPath : jsstring) (w : World) :
  let w' := snd (deriveAddressesFromFile env inputPath outputPath w) in
  (exists new,
     stderr w' = stderr w ++ new
     /\ Forall (fun entry =>
                  (exists line, In line (secondRead env inputPath)
                                /\ blank line = false
                                /\ fst entry = errorMessage line)
                  /\ fst entry <> lit "Error processing mnemonics:") new)
  /\ ((forall n, sinkOk env n = true) ->
      stderr w' = stderr w ++ expectedErrors (secondRead env inputPath)).
Proof.
  intros w'. subst w'. split.
  - rewrite deriveAddressesFromFile_unfold.
    destruct (forEach_processLine_stderr (secondRead env inputPath)
                (countedWorld env inputPath w)) as (new & Hs & Hnew).
    exists new. split.
    + destruct (forEach _ _ _) as [[[]|e] w2]; exact Hs.
    + eapply Forall_impl; [|exact Hnew].
      intros entry (line & Hin & Hb & Hm). split; [eauto|].
      rewrite Hm. apply errorMessage_not_top_level.
  - intros Hok. rewrite deriveAddressesFromFile_ok by exact Hok. simpl.
    now rewrite afterLines_stderr_eq.
Qed.

(** X6: the two counters.  After a run, [totalLines] is the number of lines
    the counting pass delivered, blank lines included (capped at 2^53, where
    a double stops counting); [processedLines] never exceeds the number of
    lines of the processing pass, and equals it (with the same cap) when the
    run returns normally. *)
Theorem counters_count_lines (inputPath outputPath : jsstring) (w : World) :
  let r := fst (deriveAddressesFromFile env inputPath outputPath w) in
  let w' := snd (deriveAddressesFromFile env inputPath outputPath w) in
  totalLines w' = Z.min (Z.of_nat (List.length (firstRead env inputPath))) (2 ^ 53)
  /\ (0 <= processedLines w'
        <= Z.min (Z.of_nat (List.length (secondRead env inputPath))) (2 ^ 53))%Z
  /\ (r = Val tt ->
      processedLines w' =
      Z.min (Z.of_nat (List.length (secondRead env inputPath))) (2 ^ 53)).
Proof.
  intros r w'. subst r w'. rewrite deriveAddressesFromFile_unfold.
  pose proof (forEach_processLine_progress env (secondRead env inputPath)
                (countedWorld env inputPath w)) as (Ht & j & Hj & _ & Hp & Hdone).
  destruct (countedWorld_fields env inputPath w) as (Ht0 & Hp0 & _).
  rewrite Ht0 in Ht. rewrite Hp0 in Hp. rewrite counterAfter_0 in Ht, Hp.
  destruct (forEach _ _ _) as [[[]|e] w2]; cbn [fst snd] in *;
    cbn [totalLines processedLines pushStdout endSink].
  - split; [exact Ht|]. rewrite Hp. split; [lia|].
    intros H. rewrite (Hdone H). reflexivity.
  - split; [exact Ht|]. rewrite Hp. split; [lia|discriminate].
Qed.

(** *** The mnemonic field of the records *)

Lemma Subsequence_In {A} (l1 l2 : list A) x :
  Subsequence l1 l2 -> In x l1 -> In x l2.
Proof.
  induction 1 as [|y l1 l2 _ IH|y l1 l2 _ IH]; simpl; intuition.
Qed.

Lemma Forall2_in_r {A B} (R : A -> B -> Prop) l1 l2 y :
  Forall2 R l1 l2 -> In y l2 -> exists x, In x l1 /\ R x y.
Proof.
  induction 1 as [|x y' l1 l2 Hxy _ IH]; simpl; [contradiction|].
  intros [<-|Hin]; [eauto|].
  destruct (IH Hin) as (x' & Hx' & Hr). eauto.
Qed.

Lemma isRecordOf_trimmed line chunk :
  blank line = false -> isRecordOf line chunk -> hasTrimmedField chunk.
Proof.
  intros Hb Hrec. destruct (trim_ends line Hb) as (first & rest & Ht & Hf & Hl).
  unfold hasTrimmedField.
  destruct Hrec as [->| ->]; rewrite Ht.
  - exists first, rest, (payloadOf line). auto.
  - exists first, rest, (lit "Error deriving address"). auto.
Qed.

(** X7: the mnemonic field is trimmed.  Whatever the sink does, every
    chunk in the sink at the end of a run starts with a non-empty mnemonic
    field whose first and last code units are not white space, followed by
    the bar, a payload and a line feed: no record has an empty mnemonic or
    one with leading or trailing white space. *)
Theorem records_have_trimmed_field (inputPath outputPath : jsstring) (w : World) :
  Forall hasTrimmedField
    (sink (snd (deriveAddressesFromFile env inputPath outputPath w))).
Proof.
  rewrite deriveAddressesFromFile_unfold.
  destruct (forEach_processLine_sink env (secondRead env inputPath)
              (countedWorld env inputPath w)) as (kept & extra & Hs & Hsub & Hrec).
  assert (Hall : Forall hasTrimmedField extra).
  { apply Forall_forall. intros chunk Hin.
    destruct (Forall2_in_r _ _ _ _ Hrec Hin) as (line & Hl & Hr).
    apply (isRecordOf_trimmed line); [|exact Hr].
    apply (Subsequence_In _ _ _ Hsub), filter_In in Hl as [_ Hnb].
    now destruct (blank line). }
  destruct (forEach _ _ _) as [[[]|e] w2]; cbn [fst snd] in *;
    cbn [sink pushStdout endSink]; rewrite Hs; exact Hall.
Qed.

(** *** The first and the last percentage *)

Lemma progressLines_snoc total start j :
  progressLines total start (S j) =
  progressLines total start j ++ [progressAt total start (S j)].
Proof. unfold progressLines. now rewrite seq_S, map_app. Qed.

(** X9: the progress reaches 100%.  When both passes deliver the same
    number of lines, at least one, and the run returns normally, the last
    progress line printed, just before the completion notice, shows 100% and
    [n/n]: in binary64 the quotient of the counter by itself is exactly one
    and its product by 100 exactly one hundred. *)
Theorem progress_ends_at_100 (inputPath outputPath : jsstring) (w : World) :
  List.length (firstRead env inputPath) = List.length (secondRead env inputPath) ->
  secondRead env inputPath <> [] ->
  fst (deriveAddressesFromFile env inputPath outputPath w) = Val tt ->
  let w' := snd (deriveAddressesFromFile env inputPath outputPath w) in
  processedLines w' = totalLines w'
  /\ exists out,
       stdout w' =
       stdout w ++ out
         ++ [progressMessage (JsNumber.Int 100) (totalLines w') (totalLines w');
             completionNotice outputPath].
Proof.
  intros Hlen Hne. rewrite deriveAddressesFromFile_unfold.
  pose proof (forEach_processLine_progress env (secondRead env inputPath)
                (countedWorld env inputPath w)) as (Ht & j & _ & Hout & Hp & Hdone).
  destruct (countedWorld_fields env inputPath w) as (Ht0 & Hp0 & Hs0 & _).
  rewrite Ht0 in Ht, Hout. rewrite Hp0 in Hp, Hout. rewrite Hs0 in Hout.
  rewrite Hlen in Ht, Hout.
  destruct (forEach _ _ _) as [[[]|e] w2]; cbn [fst snd] in *; [|discriminate].
  intros _. specialize (Hdone eq_refl). subst j.
  cbn [processedLines totalLines stdout pushStdout endSink].
  split; [now rewrite Hp, Ht|].
  destruct (secondRead env inputPath) as [|l rest]; [contradiction|].
  cbn [List.length] in *. rewrite progressLines_snoc in Hout.
  exists (progressLines (counterAfter (S (List.length rest)) 0) 0 (List.length rest)).
  rewrite Hout, Ht. unfold progressAt.
  rewrite percentOf_all by (apply counterAfter_0_pos; lia).
  now rewrite <- !app_assoc.
Qed.


End ScriptFacts.

(** ** The further theorems at concrete inputs *)

Module DemoScriptRuns.

Import Demo DemoScript.

#[local] Existing Instance demoLibs.

Example rerun_example :
  let once := main (goodEnv sampleLines) initialWorld in
  let twice := main (goodEnv sampleLines) (snd once) in
  sink (snd twice) = sink (snd once)
  /\ List.length (sink (snd once)) = 4%nat
  /\ List.length (stdout (snd twice)) = 14%nat
  /\ writes (snd twice) = 4%nat.
Proof. vm_compute. repeat split. Qed.

Example zero_total_example :
  let w' := snd (deriveAddressesFromFile (grownEnv [garbage; phrase])
                   Demo.inputFilePath Demo.outputFilePath initialWorld) in
  nth_error (stdout w') 0 = Some ([13%N] ++ lit "Processing... Infinity% (1/0)")
  /\ nth_error (stdout w') 1 = Some ([13%N] ++ lit "Processing... Infinity% (2/0)").
Proof. vm_compute. repeat split. Qed.

Lemma progress_ends_at_100_witness :
  let env := goodEnv sampleLines in
  let w' := snd (deriveAddressesFromFile env Demo.inputFilePath Demo.outputFilePath
                   initialWorld) in
  List.length (firstRead env Demo.inputFilePath)
    = List.length (secondRead env Demo.inputFilePath)
  /\ secondRead env Demo.inputFilePath <> []
  /\ fst (deriveAddressesFromFile env Demo.inputFilePath Demo.outputFilePath
            initialWorld) = Val tt
  /\ processedLines w' = totalLines w'
  /\ exists out,
       stdout w' =
       stdout initialWorld ++ out
         ++ [progressMessage (JsNumber.Int 100) (totalLines w') (totalLines w');
             completionNotice Demo.outputFilePath].
Proof.
  intros env w'.
  assert (Hne : secondRead env Demo.inputFilePath <> []) by discriminate.
  split; [reflexivity|]. split; [exact Hne|]. split; [reflexivity|].
  exact (@progress_ends_at_100 demoLibs env Demo.inputFilePath Demo.outputFilePath
           initialWorld eq_refl Hne eq_refl).
Defined.


Lemma progress_percent_within_one_witness :
  (1 <= 29 <= 100)%Z /\ (100 <= 2 ^ 44)%Z
  /\ exists z, JsNumber.percentOf 29 100 = JsNumber.Int z
               /\ (exactPercent 29 100 - 1 <= z <= exactPercent 29 100)%Z.
Proof.
  assert (Hp : (1 <= 29 <= 100)%Z) by (split; discriminate).
  assert (Ht : (100 <= 2 ^ 44)%Z) by discriminate.
  split; [exact Hp|]. split; [exact Ht|].
  exact (progress_percent_within_one 29 100 Hp Ht).
Defined.

End DemoScriptRuns.
